(** * Enquiry notification engine: a shallow embedding and its properties

    The development follows [app/services/enquiry-email.server.ts].  The
    file holds two revisions of the service: an SMTP one built on
    nodemailer, and the Mailgun one that records one attempt per
    recipient and folds the attempts into a notification state.  Both are
    embedded, each in a module of its own. *)

From Stdlib Require Import Strings.Byte Strings.Ascii.
From stdpp Require Import base option list gmap strings fin_maps.

Set Warnings "-register-all".

Open Scope Z_scope.

(** ** JavaScript strings

    A JavaScript string is a sequence of UTF-16 code units.  The service
    inspects strings only through [split], [trim] and truthiness, all of
    which work code unit by code unit. *)

Abbreviation JsString := (list N).

(** An ASCII literal of the source as a sequence of code units. *)
Definition js (s : string) : JsString :=
  (λ c, Ascii.N_of_ascii c) <$> String.list_ascii_of_string s.

(** [WhiteSpace] and [LineTerminator] of ECMAScript, the code units
    that [String.prototype.trim] and [parseInt] strip. *)
Definition isWhiteSpace (c : N) : bool :=
  ((c =? 0x0009) || (c =? 0x000A) || (c =? 0x000B) || (c =? 0x000C)
   || (c =? 0x000D) || (c =? 0x0020) || (c =? 0x00A0) || (c =? 0x1680)
   || ((0x2000 <=? c) && (c <=? 0x200A))
   || (c =? 0x2028) || (c =? 0x2029) || (c =? 0x202F) || (c =? 0x205F)
   || (c =? 0x3000) || (c =? 0xFEFF))%N.

Fixpoint trimStart (s : JsString) : JsString :=
  match s with
  | c :: s' => if isWhiteSpace c then trimStart s' else s
  | [] => []
  end.

Definition trimEnd (s : JsString) : JsString :=
  reverse (trimStart (reverse s)).

(** [s.trim()] *)
Definition trim (s : JsString) : JsString := trimEnd (trimStart s).

(** [s.split(sep)] for a separator of one code unit: the pieces between
    the separators, in order; a string without separator is one piece. *)
Fixpoint split (sep : N) (s : JsString) : list JsString :=
  match s with
  | [] => [[]]
  | c :: s' =>
      if (c =? sep)%N then [] :: split sep s'
      else match split sep s' with
           | piece :: pieces => (c :: piece) :: pieces
           | [] => [[c]]
           end
  end.

Definition comma : N := 0x2C.

(** [pieces.join(sep)], the inverse of [split]. *)
Fixpoint joinWith (sep : N) (pieces : list JsString) : JsString :=
  match pieces with
  | [] => []
  | [piece] => piece
  | piece :: pieces' => piece ++ sep :: joinWith sep pieces'
  end.

(** Truthiness of a string value: the empty string is falsy. *)
Definition truthy (s : JsString) : bool :=
  match s with [] => false | _ :: _ => true end.

(** Truthiness of a value that may be [undefined] or [null]. *)
Definition truthy_opt (v : option JsString) : bool :=
  match v with Some s => truthy s | None => false end.

(** [Number.parseInt(s, 10)]: leading white space is skipped, one sign is
    read, then the longest run of decimal digits; [None] stands for NaN.
    The result is kept as an exact integer (the source gets a double). *)
Definition isDigit (c : N) : bool := ((0x30 <=? c) && (c <=? 0x39))%N.

Fixpoint takeDigits (s : JsString) : JsString :=
  match s with
  | c :: s' => if isDigit c then c :: takeDigits s' else []
  | [] => []
  end.

Definition digitsValue (ds : JsString) : Z :=
  fold_left (λ acc d, 10 * acc + (Z.of_N d - 0x30)) ds 0.

Definition parseInt10 (s : JsString) : option Z :=
  let s1 := trimStart s in
  let '(sign, s2) :=
    match s1 with
    | c :: rest =>
        if (c =? 0x2D)%N then (-1, rest)
        else if (c =? 0x2B)%N then (1, rest)
        else (1, s1)
    | [] => (1, s1)
    end in
  match takeDigits s2 with
  | [] => None
  | ds => Some (sign * digitsValue ds)
  end.

(** ** Data model *)

Inductive EnquiryEmailRecipientType := STAFF | CUSTOMER | OTHER.
Inductive EnquiryEmailStatus := SUCCESS | FAILURE.
Inductive EnquiryNotificationState := PENDING | SENT | PARTIAL | FAILED.

#[global] Instance EnquiryEmailRecipientType_eq_dec :
  EqDecision EnquiryEmailRecipientType.
Proof. solve_decision. Defined.
#[global] Instance EnquiryEmailStatus_eq_dec : EqDecision EnquiryEmailStatus.
Proof. solve_decision. Defined.
#[global] Instance EnquiryNotificationState_eq_dec :
  EqDecision EnquiryNotificationState.
Proof. solve_decision. Defined.

(** The values that end up in a metadata map.  An object keeps its
    properties in insertion order. *)
Inductive JsValue :=
| JsNull
| JsBool (b : bool)
| JsNumber (n : Z)
| JsStr (s : JsString)
| JsObject (props : list (string * JsValue)).

Module EnquiryEmailSendAttempt.
Record t := {
  recipient : JsString;
  recipientType : EnquiryEmailRecipientType;
  status : EnquiryEmailStatus;
  subject : JsString;
  errorMessage : option JsString;
  providerId : option JsString;
  metadata : option (list (string * JsValue));
}.
End EnquiryEmailSendAttempt.
Module Attempt := EnquiryEmailSendAttempt.

(** The unnamed result type of [summarizeAttempts]. *)
Module Summary.
Record t := {
  notificationState : EnquiryNotificationState;
  lastError : option JsString;
}.
End Summary.

Module EnquiryEmailSendOutcome.
Record t := {
  attempts : list Attempt.t;
  notificationState : EnquiryNotificationState;
  lastError : option JsString;
}.
End EnquiryEmailSendOutcome.
Module Outcome := EnquiryEmailSendOutcome.

Module AttachmentPayload.
Record t := {
  filename : JsString;
  mimeType : JsString;
  size : Z;
  data : list byte;
}.
End AttachmentPayload.

Inductive WorkedWithBefore := yes | no | not_sure.

Module EnquiryEmailPayload.
Record t := {
  name : JsString;
  email : JsString;
  companyName : option JsString;
  phoneNumber : option JsString;
  requestType : JsString;
  productReference : option JsString;
  quantity : option Z;
  deliveryDeadline : option JsString;
  workedWithBefore : option WorkedWithBefore;
  message : JsString;
  extraInformation : option JsString;
  productTitle : option JsString;
  productHandle : option JsString;
  productUrl : option JsString;
  attachmentFileName : option JsString;
}.
End EnquiryEmailPayload.

(** ** Values thrown by a provider

    The service looks at a caught value through [instanceof Error],
    [typeof] and the candidate view
    [{ name?, message?, status?, statusCode?, code?, details? }];
    [Error.message] is a string.  An absent, [undefined] or [null]
    property is [None]. *)
Record ErrorCandidate := {
  cand_name : option JsString;
  cand_status : option Z;
  cand_statusCode : option Z;
  cand_code : option JsString;
  cand_details : option JsValue;
}.

Inductive Thrown :=
| ThrownError (message : JsString) (candidate : ErrorCandidate)
| ThrownObject (candidate : ErrorCandidate)
| ThrownString (s : JsString)
| ThrownOther.

(** [new Error(message)] *)
Definition newError (message : JsString) : Thrown :=
  ThrownError message
    {| cand_name := Some (js "Error"); cand_status := None;
       cand_statusCode := None; cand_code := None; cand_details := None |}.

(** ** Asynchronous computations

    A computation runs on a state, ends normally or by throwing, and
    leaves a state behind; what was done before a throw stays done.  A
    promise is the settlement it will have. *)
Inductive Completion (A : Type) :=
| Normal (a : A)
| Throw (e : Thrown).
Arguments Normal {A} a.
Arguments Throw {A} e.

Inductive Settled (A : Type) :=
| Resolved (a : A)
| Rejected (e : Thrown).
Arguments Resolved {A} a.
Arguments Rejected {A} e.

Definition Async (S A : Type) : Type := S → Completion A * S.

#[global] Instance Async_ret {S} : MRet (Async S) :=
  λ A a st, (Normal a, st).

#[global] Instance Async_bind {S} : MBind (Async S) :=
  λ A B k m st,
    match m st with
    | (Normal a, st') => k a st'
    | (Throw e, st') => (Throw e, st')
    end.

Definition throw {S A} (e : Thrown) : Async S A := λ st, (Throw e, st).

(** [await p] *)
Definition await {S A} (p : Settled A) : Async S A :=
  match p with
  | Resolved a => mret a
  | Rejected e => throw e
  end.

(** [try { body } catch (error) { handler }] *)
Definition try_catch {S A} (body : Async S A) (handler : Thrown → Async S A)
  : Async S A :=
  λ st,
    match body st with
    | (Normal a, st') => (Normal a, st')
    | (Throw e, st') => handler e st'
    end.

(** [for (const x of l) { await body(x) }] *)
Fixpoint for_of {S A} (l : list A) (body : A → Async S unit) : Async S unit :=
  match l with
  | [] => mret tt
  | x :: l' => _ ← body x; for_of l' body
  end.

(** The reasons of the promises that reject, and the values of those
    that resolve, in array order. *)
Definition rejections {A} (ps : list (Settled A)) : list Thrown :=
  omap (λ p, match p with Rejected e => Some e | Resolved _ => None end) ps.

Definition fulfilments {A} (ps : list (Settled A)) : list A :=
  omap (λ p, match p with Resolved a => Some a | Rejected _ => None end) ps.

(** [await Promise.all(ps)]: the list of the results when every promise
    resolves; otherwise the rejection of the promise that rejects first
    in time.  Which promise that is depends on the order in which the
    promises settle, which the code does not fix: [earliest] is its
    place among the promises that reject (the first of them in array
    order when [earliest] is out of range). *)
Definition promiseAll {A} (earliest : nat) (ps : list (Settled A))
  : Settled (list A) :=
  match rejections ps with
  | [] => Resolved (fulfilments ps)
  | e :: es => Rejected (default e ((e :: es) !! earliest))
  end.

(** ** Outcome aggregator *)

Definition noRecipientsMessage : JsString :=
  js "No email recipients configured for enquiry notifications".

Definition summarizeAttempts (attempts : list Attempt.t)
  : Summary.t :=
  if (length attempts =? 0)%nat then
    {| Summary.notificationState := FAILED;
       Summary.lastError := Some noRecipientsMessage |}
  else
    let failures := filter (λ entry, Attempt.status entry = FAILURE) attempts in
    let successes := filter (λ entry, Attempt.status entry = SUCCESS) attempts in
    (* failures.at(-1)?.errorMessage ?? null *)
    let lastFailure := last failures ≫= Attempt.errorMessage in
    if (length failures =? 0)%nat then
      {| Summary.notificationState := SENT; Summary.lastError := None |}
    else if (0 <? length successes)%nat then
      {| Summary.notificationState := PARTIAL;
         Summary.lastError := lastFailure |}
    else
      {| Summary.notificationState := FAILED;
         Summary.lastError := lastFailure |}.

(** ** The aggregator on arrays in a store

    In the source [attempts] is a reference to an array, and [filter]
    allocates the arrays [failures] and [successes].  This embedding
    keeps the arrays in a store, so that what the function does to the
    array it is given can be stated.  A reference that is not in the
    store makes the computation fail. *)

Module Heap.

Abbreviation Store := (gmap positive (list Attempt.t)).

Definition Comp (A : Type) : Type := Store → option (A * Store).

#[global] Instance Comp_ret : MRet Comp := λ A a σ, Some (a, σ).

#[global] Instance Comp_bind : MBind Comp :=
  λ A B k m σ,
    match m σ with
    | Some (a, σ') => k a σ'
    | None => None
    end.

(** A new array with the elements [l]. *)
Definition alloc (l : list Attempt.t) : Comp positive :=
  λ σ, let r := fresh (dom σ) in Some (r, <[r := l]> σ).

Definition read (r : positive) : Comp (list Attempt.t) :=
  λ σ, match σ !! r with Some l => Some (l, σ) | None => None end.

(** [a.length] *)
Definition array_length (a : positive) : Comp nat :=
  l ← read a; mret (length l).

(** [a.filter(p)] *)
Definition array_filter (p : Attempt.t → Prop) `{∀ x, Decision (p x)}
    (a : positive) : Comp positive :=
  l ← read a; alloc (filter p l).

(** [a.at(i)]: a negative index counts from the end; [None] is
    [undefined]. *)
Definition array_at (a : positive) (i : Z) : Comp (option Attempt.t) :=
  l ← read a;
  let k := if i <? 0 then Z.of_nat (length l) + i else i in
  mret (if k <? 0 then None else l !! Z.to_nat k).

Definition summarizeAttempts (attempts : positive) : Comp Summary.t :=
  n ← array_length attempts;
  if (n =? 0)%nat then
    mret {| Summary.notificationState := FAILED;
            Summary.lastError := Some noRecipientsMessage |}
  else
    failures ←
      array_filter (λ entry, Attempt.status entry = FAILURE) attempts;
    successes ←
      array_filter (λ entry, Attempt.status entry = SUCCESS) attempts;
    last ← array_at failures (-1);
    let lastFailure := last ≫= Attempt.errorMessage in
    failed ← array_length failures;
    if (failed =? 0)%nat then
      mret {| Summary.notificationState := SENT;
              Summary.lastError := None |}
    else
      succeeded ← array_length successes;
      if (0 <? succeeded)%nat then
        mret {| Summary.notificationState := PARTIAL;
                Summary.lastError := lastFailure |}
      else
        mret {| Summary.notificationState := FAILED;
                Summary.lastError := lastFailure |}.

End Heap.

(** ** What both revisions of the service share

    [buildSubject], [getStaffRecipients], the two confirmation copies and
    the expression for the customer recipient have the same text in both
    revisions. *)

Definition buildSubject (payload : EnquiryEmailPayload.t) : JsString :=
  js "[Free Visual] " ++ EnquiryEmailPayload.name payload.

Definition staffMessage : JsString :=
  js "A new FREE visual enquiry has been submitted. Please review the details below and follow up with the customer.".
Definition customerMessage : JsString :=
  js "This enquiry has been sent to our sales team. We will get back to you with a quotation asap.".

(** [env] is [process.env]. *)
Definition getStaffRecipients (env : gmap string JsString) : list JsString :=
  match env !! "ENQUIRY_STAFF_EMAIL"%string with
  | Some value =>
      if negb (truthy value) then []
      else filter (λ entry, truthy entry = true) (trim <$> split comma value)
  | None => []
  end.

(** [enquiry.email?.trim() || null] *)
Definition customerRecipient (enquiry : EnquiryEmailPayload.t)
  : option JsString :=
  let trimmed := trim (EnquiryEmailPayload.email enquiry) in
  if truthy trimmed then Some trimmed else None.

(** ** The recipient resolver as the specification words it

    The staff list split on [","], each entry trimmed, the empty entries
    dropped, each remaining entry a STAFF pair in the order listed; then
    one CUSTOMER pair with the trimmed customer address when that is not
    empty. *)

Module Resolver.

(** [pieces] is [s] split on [sep]: the pieces hold no [sep], there is
    at least one, and put together with [sep] between them they are
    [s]. *)
Definition splitOn (sep : N) (s : JsString) (pieces : list JsString)
  : Prop :=
  pieces ≠ []
  ∧ Forall (λ piece, sep ∉ piece) pieces
  ∧ joinWith sep pieces = s.

(** [t] is [s] trimmed: [s] is [t] with white space before and after
    it, and [t] neither starts nor ends with white space. *)
Definition trimmed (s t : JsString) : Prop :=
  ∃ before after,
    s = before ++ t ++ after
    ∧ Forall (λ c, isWhiteSpace c = true) before
    ∧ Forall (λ c, isWhiteSpace c = true) after
    ∧ match t with
      | c :: _ => isWhiteSpace c = false
      | [] => True
      end
    ∧ match last t with
      | Some c => isWhiteSpace c = false
      | None => True
      end.

Definition staffEntries (staffList : JsString) : list JsString :=
  filter (λ entry, entry ≠ []) (trim <$> split comma staffList).

Definition resolve (staffList customerEmail : JsString)
  : list (JsString * EnquiryEmailRecipientType) :=
  ((λ address, (address, STAFF)) <$> staffEntries staffList)
  ++ (if decide (trim customerEmail = []) then []
      else [ (trim customerEmail, CUSTOMER) ]).

End Resolver.

(** ** The nodemailer revision of the service

    This revision sends one message to all staff addresses and one to
    the customer, returns nothing and throws when it cannot send.  Its
    [console.info] lines are left out. *)

Module Nodemailer.

(** What [nodemailer.createTransport] is given. *)
Module Transport.
Record t := {
  host : JsString;
  port : Z;
  secure : bool;
  auth : option (JsString * JsString);
}.
End Transport.

Module Attachment.
Record t := {
  filename : JsString;
  content : list byte;
  contentType : JsString;
}.
End Attachment.

(** [to] is the array of staff addresses or the customer address. *)
Inductive Addressee :=
| ToMany (addresses : list JsString)
| ToOne (address : JsString).

Module MailOptions.
Record t := {
  to : Addressee;
  from : JsString;
  subject : JsString;
  text : JsString;
  html : JsString;
  attachments : option (list Attachment.t);
}.
End MailOptions.

(** One call of [transporter.sendMail(options)]. *)
Module Call.
Record t := {
  transporter : Transport.t;
  options : MailOptions.t;
}.
End Call.

Section Service.

Variables buildTextEmailBody buildHtmlEmailBody :
  EnquiryEmailPayload.t → JsString → JsString.

(** The SMTP server: how [sendMail] settles, given the calls made
    before it. *)
Variable smtp : list Call.t → Call.t → Settled JsValue.

(** Which of the sends that are rejected is rejected first in time (see
    [promiseAll]). *)
Variable earliest : nat.

(** [process.env] *)
Variable env : gmap string JsString.

Definition getMailer : option Transport.t :=
  let host := env !! "ENQUIRY_SMTP_HOST"%string in
  let port :=
    match env !! "ENQUIRY_SMTP_PORT"%string with
    | Some value => if truthy value then parseInt10 value else None
    | None => None
    end in
  match host, port with
  | Some host, Some port =>
      if negb (truthy host) || (port =? 0) then None
      else
        let secure :=
          bool_decide (env !! "ENQUIRY_SMTP_SECURE"%string
                       = Some (js "true")) in
        let user := env !! "ENQUIRY_SMTP_USER"%string in
        let pass := env !! "ENQUIRY_SMTP_PASS"%string in
        Some {| Transport.host := host;
                Transport.port := port;
                Transport.secure := secure;
                Transport.auth :=
                  match user, pass with
                  | Some user, Some pass =>
                      if truthy user && truthy pass
                      then Some (user, pass) else None
                  | _, _ => None
                  end |}
  | _, _ => None
  end.

(** [transporter.sendMail(options)]: the call goes out, and the
    promise it returns is settled by the server. *)
Definition sendMail (transporter : Transport.t) (options : MailOptions.t)
  : Async (list Call.t) (Settled JsValue) :=
  λ network,
    let call := {| Call.transporter := transporter;
                   Call.options := options |} in
    (Normal (smtp network call), network ++ [call]).

Definition sendEnquiryEmails (enquiry : EnquiryEmailPayload.t)
    (attachment : option AttachmentPayload.t)
  : Async (list Call.t) unit :=
  let transporter := getMailer in
  let fromAddress := env !! "ENQUIRY_NOTIFICATION_FROM"%string in
  let staffRecipients := getStaffRecipients env in
  let customerRecipient := customerRecipient enquiry in
  match transporter, fromAddress with
  | Some transporter, Some fromAddress =>
      if negb (truthy fromAddress)
         || ((length staffRecipients =? 0)%nat
             && negb (bool_decide (is_Some customerRecipient)))
      then throw (newError (js "Failed to send enquiry notification email"))
      else
        let subject := buildSubject enquiry in
        let attachments :=
          match attachment with
          | Some attachment =>
              Some [ {| Attachment.filename :=
                          AttachmentPayload.filename attachment;
                        Attachment.content :=
                          AttachmentPayload.data attachment;
                        Attachment.contentType :=
                          AttachmentPayload.mimeType attachment |} ]
          | None => None
          end in
        let sendOperations : list (Settled JsValue) := [] in
        sendOperations ←
          (if (0 <? length staffRecipients)%nat then
             operation ← sendMail transporter
               {| MailOptions.to := ToMany staffRecipients;
                  MailOptions.from := fromAddress;
                  MailOptions.subject := subject;
                  MailOptions.text :=
                    buildTextEmailBody enquiry staffMessage;
                  MailOptions.html :=
                    buildHtmlEmailBody enquiry staffMessage;
                  MailOptions.attachments := attachments |};
             mret (sendOperations ++ [operation])
           else mret sendOperations);
        sendOperations ←
          match customerRecipient with
          | Some customerRecipient =>
              operation ← sendMail transporter
                {| MailOptions.to := ToOne customerRecipient;
                   MailOptions.from := fromAddress;
                   MailOptions.subject := subject;
                   MailOptions.text :=
                     buildTextEmailBody enquiry customerMessage;
                   MailOptions.html :=
                     buildHtmlEmailBody enquiry customerMessage;
                   MailOptions.attachments := attachments |};
              mret (sendOperations ++ [operation])
          | None => mret sendOperations
          end;
        _ ← await (promiseAll earliest sendOperations);
        mret tt
  | _, _ =>
      throw (newError (js "Failed to send enquiry notification email"))
  end.

End Service.

End Nodemailer.

(** ** The Mailgun revision of the service *)

Module Mailgun.

(** What [mailgun.client] is given. *)
Module Client.
Record t := {
  username : JsString;
  key : JsString;
  url : option JsString;
}.
End Client.

(** The result of [getMailer]. *)
Module Mailer.
Record t := {
  client : Client.t;
  domain : JsString;
  fromEmail : JsString;
}.
End Mailer.

Module Attachment.
Record t := {
  data : list byte;
  filename : JsString;
  contentType : JsString;
}.
End Attachment.

(** The message handed to [messages.create]. *)
Module MessageData.
Record t := {
  to : JsString;
  from : JsString;
  subject : JsString;
  text : JsString;
  html : JsString;
  attachment : option (list Attachment.t);
}.
End MessageData.

(** One call of [client.messages.create(domain, data)]. *)
Module Call.
Record t := {
  client : Client.t;
  domain : JsString;
  data : MessageData.t;
}.
End Call.

(** What the provider answers, seen as the service sees it: an object
    with the optional string properties [id] and [message], or a value
    that is no object ([undefined], [null], a primitive). *)
Inductive Response :=
| ResponseObject (id : option JsString) (message : option JsString)
| ResponseOther.

(** An entry of [intendedRecipients]. *)
Module Recipient.
Record t := {
  email : JsString;
  recipientType : EnquiryEmailRecipientType;
  textBody : JsString;
  htmlBody : JsString;
}.
End Recipient.

(** The state a dispatch runs on: the calls made to the provider so
    far, and the array [attempts] the closure [sendToRecipient] pushes
    to. *)
Module State.
Record t := {
  network : list Call.t;
  attempts : list Attempt.t;
}.
End State.

Definition buildErrorMetadata (error : Thrown)
  : option (list (string * JsValue)) :=
  match error with
  | ThrownError _ candidate | ThrownObject candidate =>
      Some [ ("name"%string,
               JsStr (default (js "Error") (cand_name candidate)));
             ("status"%string,
               match cand_status candidate, cand_statusCode candidate with
               | Some n, _ => JsNumber n
               | None, Some n => JsNumber n
               | None, None => JsNull
               end);
             ("code"%string,
               from_option JsStr JsNull (cand_code candidate));
             ("details"%string, default JsNull (cand_details candidate)) ]
  | ThrownString _ | ThrownOther => None
  end.

Definition buildSuccessMetadata (result : Response)
  : option (list (string * JsValue)) :=
  match result with
  | ResponseObject _ message =>
      Some [ ("message"%string, from_option JsStr JsNull message) ]
  | ResponseOther => None
  end.

Definition normalizeErrorMessage (error : Thrown) : JsString :=
  match error with
  | ThrownError message _ => message
  | ThrownString s => s
  | ThrownObject _ | ThrownOther => js "Unknown error sending email"
  end.

Definition mailerNotConfigured : JsString :=
  js "Mailgun client is not configured.".
Definition missingSender : JsString :=
  js "Missing Mailgun sender address.".
Definition incompleteConfiguration : JsString :=
  js "Mailer configuration is incomplete.".

Section Service.

(** The template renderers, taken as they are given: pure functions
    of the payload and the confirmation copy. *)
Variables buildTextEmailBody buildHtmlEmailBody :
  EnquiryEmailPayload.t → JsString → JsString.

(** The provider: how [messages.create] settles, given the calls
    made before it. *)
Variable messages_create : list Call.t → Call.t → Settled Response.

(** [process.env] *)
Variable env : gmap string JsString.

Definition getMailer : option Mailer.t :=
  let apiKey := env !! "MAILGUN_API_KEY"%string in
  let domain := env !! "MAILGUN_DOMAIN"%string in
  let fromEmail := env !! "MAILGUN_FROM_EMAIL"%string in
  if negb (truthy_opt apiKey) || negb (truthy_opt domain)
     || negb (truthy_opt fromEmail)
  then None
  else
    match apiKey, domain, fromEmail with
    | Some apiKey, Some domain, Some fromEmail =>
        Some {| Mailer.client :=
                  {| Client.username := js "api";
                     Client.key := apiKey;
                     Client.url := env !! "MAILGUN_API_BASE_URL"%string |};
                Mailer.domain := domain;
                Mailer.fromEmail := fromEmail |}
    | _, _, _ => None
    end.

(** The array [intendedRecipients] once both blocks that push to it
    have run. *)
Definition intendedRecipients (enquiry : EnquiryEmailPayload.t)
  : list Recipient.t :=
  let staffRecipients := getStaffRecipients env in
  let customerRecipient := customerRecipient enquiry in
  let staffBodies :=
    if (0 <? length staffRecipients)%nat
    then Some (buildTextEmailBody enquiry staffMessage,
               buildHtmlEmailBody enquiry staffMessage)
    else None in
  let customerBodies :=
    match customerRecipient with
    | Some _ => Some (buildTextEmailBody enquiry customerMessage,
                      buildHtmlEmailBody enquiry customerMessage)
    | None => None
    end in
  let intended : list Recipient.t := [] in
  let intended :=
    match staffBodies with
    | Some (text, html) =>
        fold_left
          (λ intended email,
             intended ++ [ {| Recipient.email := email;
                              Recipient.recipientType := STAFF;
                              Recipient.textBody := text;
                              Recipient.htmlBody := html |} ])
          staffRecipients intended
    | None => intended
    end in
  match customerRecipient, customerBodies with
  | Some customer, Some (text, html) =>
      intended ++ [ {| Recipient.email := customer;
                       Recipient.recipientType := CUSTOMER;
                       Recipient.textBody := text;
                       Recipient.htmlBody := html |} ]
  | _, _ => intended
  end.

Definition misconfigurationError (mailer : option Mailer.t)
    (fromAddress : option JsString) : option JsString :=
  match mailer with
  | None => Some mailerNotConfigured
  | Some _ =>
      if negb (truthy_opt fromAddress) then Some missingSender else None
  end.

(** [attempts.push(a)] *)
Definition push (a : Attempt.t) : Async State.t unit :=
  λ st, (Normal tt,
         {| State.network := State.network st;
            State.attempts := State.attempts st ++ [a] |}).

(** [const attempts = []] *)
Definition declareAttempts : Async State.t unit :=
  λ st, (Normal tt,
         {| State.network := State.network st; State.attempts := [] |}).

(** Reading the variable [attempts]. *)
Definition readAttempts : Async State.t (list Attempt.t) :=
  λ st, (Normal (State.attempts st), st).

(** [mailer.client.messages.create(domain, data)]: the call goes
    out, and the promise it returns is settled by the provider. *)
Definition create (call : Call.t) : Async State.t (Settled Response) :=
  λ st, (Normal (messages_create (State.network st) call),
         {| State.network := State.network st ++ [call];
            State.attempts := State.attempts st |}).

Section Dispatch.

Variable enquiry : EnquiryEmailPayload.t.
Variable attachment : option AttachmentPayload.t.

Let mailer := getMailer.
Let fromAddress := Mailer.fromEmail <$> mailer.
Let subject := buildSubject enquiry.

(** A [Buffer] is an object and so truthy, and [filename] is a string:
    there is an attachment to send exactly when one was given. *)
Let attachments : option (list Attachment.t) :=
  match attachment with
  | Some attachment =>
      Some [ {| Attachment.data := AttachmentPayload.data attachment;
                Attachment.filename :=
                  AttachmentPayload.filename attachment;
                Attachment.contentType :=
                  AttachmentPayload.mimeType attachment |} ]
  | None => None
  end.

Let misconfiguration := misconfigurationError mailer fromAddress.

Definition misconfigurationAttempt (recipient : Recipient.t)
  : Attempt.t :=
  {| Attempt.recipient := Recipient.email recipient;
     Attempt.recipientType := Recipient.recipientType recipient;
     Attempt.status := FAILURE;
     Attempt.subject := subject;
     Attempt.errorMessage :=
       Some (default incompleteConfiguration misconfiguration);
     Attempt.providerId := None;
     Attempt.metadata :=
       Some [ ("reason"%string,
                JsStr (js "missing_mailer_configuration")) ] |}.

(** The arguments of [messages.create] for one recipient. *)
Definition createCall (mailer : Mailer.t) (fromAddress : JsString)
    (recipient : Recipient.t) : Call.t :=
  {| Call.client := Mailer.client mailer;
     Call.domain := Mailer.domain mailer;
     Call.data :=
       {| MessageData.to := Recipient.email recipient;
          MessageData.from := fromAddress;
          MessageData.subject := subject;
          MessageData.text := Recipient.textBody recipient;
          MessageData.html := Recipient.htmlBody recipient;
          MessageData.attachment := attachments |} |}.

(** The record pushed after the provider has answered. *)
Definition successAttempt (recipient : Recipient.t)
    (response : Response) : Attempt.t :=
  let providerId :=
    match response with
    | ResponseObject id _ => id
    | ResponseOther => None
    end in
  {| Attempt.recipient := Recipient.email recipient;
     Attempt.recipientType := Recipient.recipientType recipient;
     Attempt.status := SUCCESS;
     Attempt.subject := subject;
     Attempt.errorMessage := None;
     Attempt.providerId := providerId;
     Attempt.metadata := buildSuccessMetadata response |}.

(** The record pushed in the [catch] block. *)
Definition failureAttempt (recipient : Recipient.t) (error : Thrown)
  : Attempt.t :=
  {| Attempt.recipient := Recipient.email recipient;
     Attempt.recipientType := Recipient.recipientType recipient;
     Attempt.status := FAILURE;
     Attempt.subject := subject;
     Attempt.errorMessage := Some (normalizeErrorMessage error);
     Attempt.providerId := None;
     Attempt.metadata := buildErrorMetadata error |}.

Definition sendToRecipient (recipient : Recipient.t)
  : Async State.t unit :=
  match mailer, fromAddress with
  | Some mailer, Some fromAddress =>
      if truthy_opt misconfiguration || negb (truthy fromAddress)
      then push (misconfigurationAttempt recipient)
      else
        try_catch
          (promise ← create (createCall mailer fromAddress recipient);
           response ← await promise;
           push (successAttempt recipient response))
          (λ error, push (failureAttempt recipient error))
  | _, _ => push (misconfigurationAttempt recipient)
  end.

Definition syntheticAttempt : Attempt.t :=
  {| Attempt.recipient := js "n/a";
     Attempt.recipientType := OTHER;
     Attempt.status := FAILURE;
     Attempt.subject := subject;
     Attempt.errorMessage := Some noRecipientsMessage;
     Attempt.providerId := None;
     Attempt.metadata := None |}.

Definition sendEnquiryEmails : Async State.t Outcome.t :=
  let intendedRecipients := intendedRecipients enquiry in
  if (length intendedRecipients =? 0)%nat then
    let attempts := [ syntheticAttempt ] in
    let summary := summarizeAttempts attempts in
    mret {| Outcome.attempts := attempts;
            Outcome.notificationState :=
              Summary.notificationState summary;
            Outcome.lastError := Summary.lastError summary |}
  else
    _ ← declareAttempts;
    _ ← for_of intendedRecipients sendToRecipient;
    attempts ← readAttempts;
    let summary := summarizeAttempts attempts in
    mret {| Outcome.attempts := attempts;
            Outcome.notificationState :=
              Summary.notificationState summary;
            Outcome.lastError := Summary.lastError summary |}.

(** *** What one dispatch leaves behind

    [Recorded history r calls a]: with the calls [history] made so
    far, sending to [r] makes the calls [calls] and pushes the
    record [a]. *)
Inductive Recorded (history : list Call.t) (r : Recipient.t)
  : list Call.t → Attempt.t → Prop :=
| Recorded_misconfigured :
    mailer = None →
    Recorded history r [] (misconfigurationAttempt r)
| Recorded_success m response :
    mailer = Some m →
    messages_create history (createCall m (Mailer.fromEmail m) r)
    = Resolved response →
    Recorded history r [createCall m (Mailer.fromEmail m) r]
      (successAttempt r response)
| Recorded_failure m error :
    mailer = Some m →
    messages_create history (createCall m (Mailer.fromEmail m) r)
    = Rejected error →
    Recorded history r [createCall m (Mailer.fromEmail m) r]
      (failureAttempt r error).

(** The same for a list of recipients, taken in order. *)
Inductive Dispatched (history : list Call.t)
  : list Recipient.t → list Call.t → list Attempt.t → Prop :=
| Dispatched_nil : Dispatched history [] [] []
| Dispatched_cons r rs calls a calls' records :
    Recorded history r calls a →
    Dispatched (history ++ calls) rs calls' records →
    Dispatched history (r :: rs) (calls ++ calls') (a :: records).

End Dispatch.

End Service.

End Mailgun.

(** ** Inputs for the scenarios of the specification *)

Module Examples.

(** A renderer that returns the confirmation copy alone. *)
Definition copyOnly : EnquiryEmailPayload.t → JsString → JsString :=
  λ _ confirmationCopy, confirmationCopy.

Definition enquiryFrom (customerEmail : JsString) : EnquiryEmailPayload.t :=
  {| EnquiryEmailPayload.name := js "Ada";
     EnquiryEmailPayload.email := customerEmail;
     EnquiryEmailPayload.companyName := None;
     EnquiryEmailPayload.phoneNumber := None;
     EnquiryEmailPayload.requestType := js "visual_enquiry";
     EnquiryEmailPayload.productReference := None;
     EnquiryEmailPayload.quantity := Some 250;
     EnquiryEmailPayload.deliveryDeadline := None;
     EnquiryEmailPayload.workedWithBefore := Some not_sure;
     EnquiryEmailPayload.message :=
       js "Customer requested a FREE visual via the storefront enquiry form.";
     EnquiryEmailPayload.extraInformation := None;
     EnquiryEmailPayload.productTitle := None;
     EnquiryEmailPayload.productHandle := None;
     EnquiryEmailPayload.productUrl := None;
     EnquiryEmailPayload.attachmentFileName := None |}.

(** Only the staff list is set: no Mailgun and no SMTP settings. *)
Definition staffOnly (staffList : JsString) : gmap string JsString :=
  {[ "ENQUIRY_STAFF_EMAIL"%string := staffList ]}.

(** Mailgun is configured. *)
Definition withMailgun (staffList : JsString) : gmap string JsString :=
  <["MAILGUN_API_KEY"%string := js "key-1"]>
    (<["MAILGUN_DOMAIN"%string := js "mg.example.com"]>
       (<["MAILGUN_FROM_EMAIL"%string := js "sales@example.com"]>
          (staffOnly staffList))).

(** SMTP is configured. *)
Definition withSmtp (staffList : JsString) : gmap string JsString :=
  <["ENQUIRY_SMTP_HOST"%string := js "smtp.example.com"]>
    (<["ENQUIRY_SMTP_PORT"%string := js "587"]>
       (<["ENQUIRY_NOTIFICATION_FROM"%string := js "sales@example.com"]>
          (staffOnly staffList))).

Definition queued : Mailgun.Response :=
  Mailgun.ResponseObject (Some (js "<1@mg.example.com>"))
    (Some (js "Queued. Thank you.")).

(** A provider that accepts every message. *)
Definition accepting
  : list Mailgun.Call.t → Mailgun.Call.t → Settled Mailgun.Response :=
  λ _ _, Resolved queued.

(** A provider that rejects the messages to one address. *)
Definition rejecting (address : JsString)
  : list Mailgun.Call.t → Mailgun.Call.t → Settled Mailgun.Response :=
  λ _ call,
    if decide (Mailgun.MessageData.to (Mailgun.Call.data call) = address)
    then Rejected (newError (js "Forbidden"))
    else Resolved queued.

(** The staff list and the customer of scenarios A and B. *)
Definition staff : JsString := js "a@x.com,b@x.com".
Definition customer : JsString := js "c@y.com".

Definition idle : Mailgun.State.t :=
  {| Mailgun.State.network := []; Mailgun.State.attempts := [] |}.

(** An SMTP server that accepts, and one that rejects. *)
Definition smtpAccepting
  : list Nodemailer.Call.t → Nodemailer.Call.t → Settled JsValue :=
  λ _ _, Resolved JsNull.
Definition smtpRejecting
  : list Nodemailer.Call.t → Nodemailer.Call.t → Settled JsValue :=
  λ _ _, Rejected (newError (js "Connection refused")).


Definition attempted (status : EnquiryEmailStatus)
    (errorMessage : option JsString) : Attempt.t :=
  {| Attempt.recipient := js "a@x.com";
     Attempt.recipientType := STAFF;
     Attempt.status := status;
     Attempt.subject := js "[Free Visual] Ada";
     Attempt.errorMessage := errorMessage;
     Attempt.providerId := None;
     Attempt.metadata := None |}.

End Examples.

(** ** Rendering helpers of the message builders *)

(** [s.replace(/c/g, replacement)] for a pattern of one code unit. *)
Fixpoint replaceAll (c : N) (replacement s : JsString) : JsString :=
  match s with
  | [] => []
  | x :: s' =>
      (if (x =? c)%N then replacement else [x]) ++ replaceAll c replacement s'
  end.

Definition ampersand : N := 0x26.
Definition lessThan : N := 0x3C.
Definition greaterThan : N := 0x3E.
Definition doubleQuote : N := 0x22.
Definition singleQuote : N := 0x27.

(** The entity ["&quot;"], spelled by its code units. *)
Definition quotEntity : JsString := [0x26; 0x71; 0x75; 0x6F; 0x74; 0x3B]%N.

Definition escapeHtml (value : JsString) : JsString :=
  replaceAll singleQuote (js "&#39;")
    (replaceAll doubleQuote quotEntity
       (replaceAll greaterThan (js "&gt;")
          (replaceAll lessThan (js "&lt;")
             (replaceAll ampersand (js "&amp;") value)))).

(** The substitution [escapeHtml] amounts to, one code unit at a time. *)
Definition escapeUnit (c : N) : JsString :=
  if (c =? ampersand)%N then js "&amp;"
  else if (c =? lessThan)%N then js "&lt;"
  else if (c =? greaterThan)%N then js "&gt;"
  else if (c =? doubleQuote)%N then quotEntity
  else if (c =? singleQuote)%N then js "&#39;"
  else [c].

(** The code units a text must not hold to be free of markup. *)
Definition isMarkup (c : N) : bool :=
  ((c =? lessThan) || (c =? greaterThan) || (c =? doubleQuote)
   || (c =? singleQuote))%N.

Definition lineBreak : JsString := js "<br />".

(** [s.replace(/\r?\n/g, "<br />")] *)
Fixpoint replaceLineBreaks (s : JsString) : JsString :=
  match s with
  | [] => []
  | c :: s' =>
      if (c =? 0x0A)%N then lineBreak ++ replaceLineBreaks s'
      else
        match s' with
        | c' :: s'' =>
            if (c =? 0x0D)%N && (c' =? 0x0A)%N
            then lineBreak ++ replaceLineBreaks s''
            else c :: replaceLineBreaks s'
        | [] => [c]
        end
  end.

(** [pieces.join(sep)] for a separator that is a string. *)
Fixpoint joinString (sep : JsString) (pieces : list JsString) : JsString :=
  match pieces with
  | [] => []
  | [piece] => piece
  | piece :: pieces' => piece ++ sep ++ joinString sep pieces'
  end.

Definition dashPlaceholder : JsString :=
  js "<span style=" ++ [doubleQuote] ++ js "color:#777777;" ++ [doubleQuote]
  ++ js ">&mdash;</span>".

(** [safeHtml] of [buildHtmlEmailBody] *)
Definition safeHtml (value : option JsString) : JsString :=
  match value with
  | Some value =>
      if truthy value && (0 <? length (trim value))%nat
      then replaceLineBreaks (escapeHtml (trim value))
      else dashPlaceholder
  | None => dashPlaceholder
  end.

(** [String(n)] for a number that is an integer below [10^21] in
    absolute value: its decimal digits, with a minus sign when negative. *)
Fixpoint decimalDigits (fuel : nat) (n : Z) : JsString :=
  match fuel with
  | O => []
  | S fuel' =>
      (if n <? 10 then [] else decimalDigits fuel' (n / 10))
      ++ [Z.to_N (0x30 + n mod 10)]
  end.

Definition numberToString (n : Z) : JsString :=
  let digits m := decimalDigits (S (Z.to_nat (Z.log2 m))) m in
  if n <? 0 then 0x2D%N :: digits (- n) else digits n.

Definition formatWorkedWithBefore (value : option WorkedWithBefore)
  : option JsString :=
  match value with
  | Some yes => Some (js "Yes")
  | Some no => Some (js "No")
  | Some not_sure => Some (js "I'm not sure")
  | None => None
  end.

Definition emDash : JsString := [0x2014%N].

(** [safe] of [buildTextEmailBody] *)
Definition safe (value : option JsString) : JsString :=
  match value with
  | Some value =>
      if truthy value && (0 <? length (trim value))%nat
      then trim value else emDash
  | None => emDash
  end.

Definition lineFeed : N := 0x0A.

(** The array [lines] of [buildTextEmailBody]. *)
Definition textLines (payload : EnquiryEmailPayload.t)
    (confirmationCopy : JsString) : list JsString :=
  let worked :=
    default emDash
      (formatWorkedWithBefore (EnquiryEmailPayload.workedWithBefore payload)) in
  [ js "New FREE visual enquiry received.";
    [];
    confirmationCopy;
    [];
    js "Product Information";
    js "  Product Name: " ++ safe (EnquiryEmailPayload.productTitle payload);
    js "  Product SKU: "
      ++ safe (EnquiryEmailPayload.productReference payload);
    js "  Required Date: "
      ++ safe (EnquiryEmailPayload.deliveryDeadline payload);
    js "  Quantity for Quote: "
      ++ safe (numberToString <$> EnquiryEmailPayload.quantity payload);
    [];
    js "Customer Information";
    js "  Name: " ++ safe (Some (EnquiryEmailPayload.name payload));
    js "  Email: " ++ safe (Some (EnquiryEmailPayload.email payload));
    js "  Phone: " ++ safe (EnquiryEmailPayload.phoneNumber payload);
    js "  Company: " ++ safe (EnquiryEmailPayload.companyName payload);
    [];
    js "Other Information";
    js "  Source: "
      ++ safe (Some
                 (if decide (EnquiryEmailPayload.requestType payload
                             = js "visual_enquiry")
                  then js "Free visual enquiry"
                  else EnquiryEmailPayload.requestType payload));
    js "  Worked with us before: " ++ worked;
    js "  Notes: "
      ++ safe (Some
                 (default (EnquiryEmailPayload.message payload)
                    (EnquiryEmailPayload.extraInformation payload)));
    js "  Attachment: "
      ++ safe (EnquiryEmailPayload.attachmentFileName payload) ].

Definition buildTextEmailBody (payload : EnquiryEmailPayload.t)
    (confirmationCopy : JsString) : JsString :=
  joinWith lineFeed (textLines payload confirmationCopy).

(** ** The storefront route [app/routes/proxy.enquiry.ts]

    The helpers that read the submitted form, the data of the row that
    is created and later handed to [sendEnquiryEmails], and the
    operations of the transaction that stores the outcome. *)

Module ProxyRoute.

(** A [File] of a form: its name, its media type and its bytes; its
    [size] is the number of its bytes. *)
Module File.
Record t := {
  name : JsString;
  type : JsString;
  content : list byte;
}.
Definition size (file : t) : Z := Z.of_nat (length (content file)).
End File.

Inductive FormDataEntryValue :=
| EntryString (value : JsString)
| EntryFile (file : File.t).

(** A [FormData]: its entries in order. *)
Abbreviation FormData := (list (JsString * FormDataEntryValue)).

(** [formData.get(field)]: the first value of that name, or null. *)
Fixpoint formGet (formData : FormData) (field : JsString)
  : option FormDataEntryValue :=
  match formData with
  | [] => None
  | (name, value) :: formData' =>
      if decide (name = field) then Some value else formGet formData' field
  end.

Definition getAttachmentFromForm (rawValue : option FormDataEntryValue)
  : option AttachmentPayload.t :=
  match rawValue with
  | None | Some (EntryString _) => None
  | Some (EntryFile rawValue) =>
      if File.size rawValue =? 0 then None
      else
        Some {| AttachmentPayload.filename :=
                  if truthy (File.name rawValue) then File.name rawValue
                  else js "attachment";
                AttachmentPayload.mimeType :=
                  if truthy (File.type rawValue) then File.type rawValue
                  else js "application/octet-stream";
                AttachmentPayload.size := File.size rawValue;
                AttachmentPayload.data := File.content rawValue |}
  end.

Definition parseInteger (value : option FormDataEntryValue) : option Z :=
  match value with
  | Some (EntryString value) =>
      if negb (truthy value) then None
      else
        let trimmed := trim value in
        if negb (truthy trimmed) then None else parseInt10 trimmed
  | Some (EntryFile _) | None => None
  end.

Definition getStringFromEntry (value : option FormDataEntryValue)
  : option JsString :=
  match value with
  | Some (EntryString value) => Some value
  | Some (EntryFile _) | None => None
  end.

Definition getStringField (formData : FormData) (field : JsString)
  : option JsString :=
  getStringFromEntry (formGet formData field).

Definition normalizeString (value : option JsString) : option JsString :=
  match value with
  | Some value =>
      if negb (truthy value) then None
      else
        let trimmed := trim value in
        if (0 <? length trimmed)%nat then Some trimmed else None
  | None => None
  end.

Section Action.

(** [String.prototype.toLowerCase], taken as it is given. *)
Variable toLowerCase : JsString → JsString.

Definition normalizeWorkedWithBefore (value : option JsString)
  : option WorkedWithBefore :=
  match value with
  | Some value =>
      if negb (truthy value) then None
      else
        let normalized := toLowerCase (trim value) in
        if decide (normalized = js "yes") then Some yes
        else if decide (normalized = js "no") then Some no
        else if decide (normalized = js "not_sure") then Some not_sure
        else None
  | None => None
  end.

(** The fields of the created row that [sendEnquiryEmails] reads; the
    row is taken to hold what [prisma.enquiry.create] was given. *)
Definition createdEnquiry (formData : FormData)
    (attachment : option AttachmentPayload.t) : EnquiryEmailPayload.t :=
  let nameValue :=
    default (js "Unknown contact")
      (normalizeString (getStringField formData (js "name"))) in
  let companyName :=
    normalizeString (getStringField formData (js "company_name")) in
  let emailValue :=
    default [] (normalizeString (getStringField formData (js "email"))) in
  let phoneNumber :=
    normalizeString (getStringField formData (js "phone_number")) in
  let requestTypeValue :=
    default (js "visual_enquiry")
      (normalizeString (getStringField formData (js "request_type"))) in
  let otherRequirements :=
    normalizeString (getStringField formData (js "other_requirements")) in
  let messageValue :=
    default
      (js "Customer requested a FREE visual via the storefront enquiry form.")
      otherRequirements in
  let productReference :=
    normalizeString (getStringField formData (js "product_reference")) in
  let productHandle := getStringField formData (js "product_handle") in
  let productTitle := getStringField formData (js "product_title") in
  let productUrl := getStringField formData (js "product_url") in
  let deliveryDeadline :=
    normalizeString (getStringField formData (js "delivery_deadline")) in
  let workedWithBefore :=
    normalizeWorkedWithBefore
      (getStringField formData (js "worked_with_before")) in
  let quantityValue := parseInteger (formGet formData (js "quantity")) in
  {| EnquiryEmailPayload.name := nameValue;
     EnquiryEmailPayload.email := emailValue;
     EnquiryEmailPayload.companyName := companyName;
     EnquiryEmailPayload.phoneNumber := phoneNumber;
     EnquiryEmailPayload.requestType := requestTypeValue;
     EnquiryEmailPayload.productReference := productReference;
     EnquiryEmailPayload.quantity := quantityValue;
     EnquiryEmailPayload.deliveryDeadline := deliveryDeadline;
     EnquiryEmailPayload.workedWithBefore := workedWithBefore;
     EnquiryEmailPayload.message := messageValue;
     EnquiryEmailPayload.extraInformation := otherRequirements;
     EnquiryEmailPayload.productTitle := productTitle;
     EnquiryEmailPayload.productHandle := productHandle;
     EnquiryEmailPayload.productUrl := productUrl;
     EnquiryEmailPayload.attachmentFileName :=
       AttachmentPayload.filename <$> attachment |}.

End Action.

(** The [metadata] column: [Prisma.JsonNull] or a JSON object. *)
Inductive JsonColumn :=
| JsonNull
| JsonObject (props : list (string * JsValue)).

Module EmailLogRow.
Record t := {
  enquiryId : JsString;
  recipient : JsString;
  recipientType : EnquiryEmailRecipientType;
  status : EnquiryEmailStatus;
  subject : JsString;
  errorMessage : option JsString;
  providerId : option JsString;
  metadata : JsonColumn;
}.
End EmailLogRow.

Module UpdateData.
Record t := {
  emailNotificationState : EnquiryNotificationState;
  lastEmailAttemptAt : Z;
  lastEmailError : option JsString;
}.
End UpdateData.

(** The operations handed to [prisma.$transaction]. *)
Inductive Operation :=
| EnquiryUpdate (id : JsString) (data : UpdateData.t)
| EmailLogCreateMany (rows : list EmailLogRow.t).

(** [emailOutcome ?? { attempts: [], notificationState: "FAILED", ... }] *)
Definition resolvedOutcome (emailOutcome : option Outcome.t)
    (emailError : option Thrown) : Outcome.t :=
  match emailOutcome with
  | Some outcome => outcome
  | None =>
      {| Outcome.attempts := [];
         Outcome.notificationState := FAILED;
         Outcome.lastError :=
           Some match emailError with
                | Some (ThrownError message _) => message
                | _ => js "Unknown error sending enquiry notification email"
                end |}
  end.

Definition logRow (enquiryId : JsString) (attempt : Attempt.t)
  : EmailLogRow.t :=
  {| EmailLogRow.enquiryId := enquiryId;
     EmailLogRow.recipient := Attempt.recipient attempt;
     EmailLogRow.recipientType := Attempt.recipientType attempt;
     EmailLogRow.status := Attempt.status attempt;
     EmailLogRow.subject := Attempt.subject attempt;
     EmailLogRow.errorMessage := Attempt.errorMessage attempt;
     EmailLogRow.providerId := Attempt.providerId attempt;
     EmailLogRow.metadata :=
       match Attempt.metadata attempt with
       | Some metadata => JsonObject metadata
       | None => JsonNull
       end |}.

Definition updateOperations (enquiryId : JsString) (attemptedAt : Z)
    (resolvedOutcome : Outcome.t) : list Operation :=
  let updateData :=
    {| UpdateData.emailNotificationState :=
         Outcome.notificationState resolvedOutcome;
       UpdateData.lastEmailAttemptAt := attemptedAt;
       UpdateData.lastEmailError := Outcome.lastError resolvedOutcome |} in
  let updateOperations := [ EnquiryUpdate enquiryId updateData ] in
  if (0 <? length (Outcome.attempts resolvedOutcome))%nat then
    updateOperations
    ++ [ EmailLogCreateMany
           (logRow enquiryId <$> Outcome.attempts resolvedOutcome) ]
  else updateOperations.

(** The part of [action] from the [try] around [sendEnquiryEmails] to
    the array given to [prisma.$transaction]; [attemptedAt] is the time
    read before the [try]. *)
Definition notificationOperations {S} (sendEnquiryEmails : Async S Outcome.t)
    (enquiryId : JsString) (attemptedAt : Z) : Async S (list Operation) :=
  caught ←
    try_catch
      (emailOutcome ← sendEnquiryEmails;
       mret (Some emailOutcome, @None Thrown))
      (λ error, mret (@None Outcome.t, Some error));
  mret (updateOperations enquiryId attemptedAt
          (resolvedOutcome caught.1 caught.2)).

End ProxyRoute.

(** ** The dashboard route

    Its loader's paging and status counts, and its action, which
    changes the status of one enquiry.  The table of enquiries is a map
    from identifier to row; of a row only the columns the action reads
    or writes are kept. *)

Module Dashboard.

Definition STATUS_VALUES : list JsString :=
  [ js "NEW"; js "IN_PROGRESS"; js "AWAITING_CUSTOMER"; js "QUOTE_SENT";
    js "COMPLETED"; js "CLOSED" ].

Definition PAGE_SIZE : Z := 10.

(** From this value on a decimal numeral is read as [Infinity], which
    [Number.isFinite] refuses.  (An engine may drop digits after the
    twentieth, so just below it the reading may differ.) *)
Definition infinityThreshold : Z := 2 ^ 1024 - 2 ^ 970.

(** The page asked for: [rawPage] parsed, or 1 when it is missing, no
    number, not finite or below 1. *)
Definition requestedPage (rawPage : option JsString) : Z :=
  match parseInt10 (default [] rawPage) with
  | Some parsed =>
      if (infinityThreshold <=? Z.abs parsed) || (parsed <? 1) then 1
      else parsed
  | None => 1
  end.

(** [Math.max(1, Math.ceil(totalMatching / PAGE_SIZE))] *)
Definition maxPage (totalMatching : Z) : Z :=
  Z.max 1 (- ((- totalMatching) / PAGE_SIZE)).

Definition page (rawPage : option JsString) (totalMatching : Z) : Z :=
  Z.min (requestedPage rawPage) (maxPage totalMatching).

Definition skip (rawPage : option JsString) (totalMatching : Z) : Z :=
  (page rawPage totalMatching - 1) * PAGE_SIZE.

(** [object[key] = value] for a number [value] and a plain object, the
    object seen as the map of its own properties: under the key
    [__proto__] the assignment reaches the accessor of the prototype,
    which ignores a number, and the object gets no property. *)
Definition assign (key : JsString) (value : Z) (object : gmap JsString Z)
  : gmap JsString Z :=
  if decide (key = js "__proto__") then object else <[key := value]> object.

(** The object [statusCounts]: a zero for every status of the list, then
    the counts of the groups. *)
Definition statusCounts (groupedCounts : list (JsString * Z))
  : gmap JsString Z :=
  let statusCounts : gmap JsString Z := ∅ in
  let statusCounts :=
    fold_left (λ counts option, assign option 0 counts)
      STATUS_VALUES statusCounts in
  fold_left (λ counts entry, assign entry.1 entry.2 counts)
    groupedCounts statusCounts.

Module Row.
Record t := {
  shop : JsString;
  status : JsString;
  statusNotes : option JsString;
  statusUpdatedAt : Z;
}.
End Row.

Inductive ActionData :=
| ActionError (httpStatus : Z) (error : JsString)
| ActionOk (id : JsString) (status : JsString)
    (statusNotes : option JsString) (statusUpdatedAt : Z).

Section Action.

(** [String.prototype.toUpperCase], taken as it is given. *)
Variable toUpperCase : JsString → JsString.

(** The status filter of the loader. *)
Definition statusFilter (rawStatus : option JsString) : option JsString :=
  let normalizedStatus :=
    match rawStatus with
    | Some rawStatus =>
        if truthy rawStatus then Some (toUpperCase rawStatus) else None
    | None => None
    end in
  if decide (default [] normalizedStatus ∈ STATUS_VALUES)
  then normalizedStatus else None.

(** [action], with the shop of the session, the time [now] and the
    table of enquiries. *)
Definition action (sessionShop : JsString) (now : Z)
    (formData : ProxyRoute.FormData) (enquiries : gmap JsString Row.t)
  : ActionData * gmap JsString Row.t :=
  let intent := ProxyRoute.formGet formData (js "intent") in
  if negb match intent with
          | Some (ProxyRoute.EntryString value) =>
              bool_decide (value = js "update-status")
          | _ => false
          end
  then (ActionError 400 (js "Unsupported action"), enquiries)
  else
    let enquiryIdRaw := ProxyRoute.formGet formData (js "enquiryId") in
    let statusRaw := ProxyRoute.formGet formData (js "status") in
    let notesRaw := ProxyRoute.formGet formData (js "statusNotes") in
    let enquiryId :=
      match enquiryIdRaw with
      | Some (ProxyRoute.EntryString value) => trim value
      | _ => []
      end in
    let statusValue :=
      match statusRaw with
      | Some (ProxyRoute.EntryString value) => toUpperCase (trim value)
      | _ => []
      end in
    let statusNotes :=
      match notesRaw with
      | Some (ProxyRoute.EntryString value) =>
          if (0 <? length (trim value))%nat then Some (trim value) else None
      | _ => None
      end in
    if negb (truthy enquiryId)
    then (ActionError 400 (js "Missing enquiry identifier"), enquiries)
    else if decide (statusValue ∉ STATUS_VALUES)
    then (ActionError 400 (js "Invalid status value"), enquiries)
    else
      match enquiries !! enquiryId with
      | Some existing =>
          if decide (Row.shop existing ≠ sessionShop)
          then (ActionError 404 (js "Enquiry not found"), enquiries)
          else
            let shouldRefreshTimestamp :=
              bool_decide (Row.status existing ≠ statusValue) in
            let updated :=
              {| Row.shop := Row.shop existing;
                 Row.status := statusValue;
                 Row.statusNotes := statusNotes;
                 Row.statusUpdatedAt :=
                   if shouldRefreshTimestamp then now
                   else Row.statusUpdatedAt existing |} in
            (ActionOk enquiryId (Row.status updated)
               (Row.statusNotes updated) (Row.statusUpdatedAt updated),
             <[enquiryId := updated]> enquiries)
      | None => (ActionError 404 (js "Enquiry not found"), enquiries)
      end.

End Action.

End Dashboard.

(** ** Further inputs for the scenarios *)

Module FurtherExamples.

(** A provider that rejects every message. *)
Definition refusing
  : list Mailgun.Call.t → Mailgun.Call.t → Settled Mailgun.Response :=
  λ _ _, Rejected (newError (js "Forbidden")).

(** The transport that [Examples.withSmtp] describes. *)
Definition relay : Nodemailer.Transport.t :=
  {| Nodemailer.Transport.host := js "smtp.example.com";
     Nodemailer.Transport.port := 587;
     Nodemailer.Transport.secure := false;
     Nodemailer.Transport.auth := None |}.

End FurtherExamples.

(** * Properties *)

Section Aggregator.

Implicit Types (attempts pre post : list Attempt.t).
Implicit Types (f a : Attempt.t).

Lemma filter_failure_split pre f post :
  Attempt.status f = FAILURE →
  Forall (λ a, Attempt.status a = SUCCESS) post →
  filter (λ entry, Attempt.status entry = FAILURE) (pre ++ f :: post)
  = filter (λ entry, Attempt.status entry = FAILURE) pre ++ [f].
Proof.
  intros Hf Hpost. rewrite filter_app, filter_cons_True by done.
  f_equal. f_equal. induction Hpost as [|a post Ha _ IH]; [done|].
  rewrite filter_cons_False; [done|]. rewrite Ha. discriminate.
Qed.

Lemma filter_success_nil attempts :
  Forall (λ a, Attempt.status a = FAILURE) attempts →
  filter (λ entry, Attempt.status entry = SUCCESS) attempts = [].
Proof.
  induction 1 as [|a l Ha _ IH]; [done|].
  rewrite filter_cons_False; [done|]. rewrite Ha. discriminate.
Qed.

Lemma filter_failure_nil attempts :
  Forall (λ a, Attempt.status a ≠ FAILURE) attempts →
  filter (λ entry, Attempt.status entry = FAILURE) attempts = [].
Proof.
  induction 1 as [|a l Ha _ IH]; [done|].
  by rewrite filter_cons_False.
Qed.

Lemma filter_success_length attempts :
  Exists (λ a, Attempt.status a = SUCCESS) attempts →
  (0 < length (filter (λ entry, Attempt.status entry = SUCCESS) attempts))%nat.
Proof.
  induction 1 as [a l Ha|a l _ IH].
  - rewrite filter_cons_True by done. simpl. lia.
  - rewrite filter_cons. case_decide; simpl; lia.
Qed.

Lemma summarizeAttempts_rules attempts :
  (attempts = [] →
     summarizeAttempts attempts
     = {| Summary.notificationState := FAILED;
          Summary.lastError := Some noRecipientsMessage |})
  ∧ (attempts ≠ [] → Forall (λ a, Attempt.status a ≠ FAILURE) attempts →
     summarizeAttempts attempts
     = {| Summary.notificationState := SENT; Summary.lastError := None |})
  ∧ (∀ pre f post,
       attempts = pre ++ f :: post →
       Attempt.status f = FAILURE →
       Forall (λ a, Attempt.status a = SUCCESS) post →
       (Exists (λ a, Attempt.status a = SUCCESS) attempts →
          summarizeAttempts attempts
          = {| Summary.notificationState := PARTIAL;
               Summary.lastError := Attempt.errorMessage f |})
       ∧ (Forall (λ a, Attempt.status a = FAILURE) attempts →
          summarizeAttempts attempts
          = {| Summary.notificationState := FAILED;
               Summary.lastError := Attempt.errorMessage f |})).
Proof.
  split; [by intros ->|]. split.
  - intros Hne Hall. unfold summarizeAttempts.
    destruct attempts as [|a l]; [done|].
    change (length (a :: l) =? 0)%nat with false. cbv iota.
    by rewrite (filter_failure_nil _ Hall).
  - intros pre f post -> Hf Hpost. unfold summarizeAttempts.
    assert ((length (pre ++ f :: post) =? 0)%nat = false) as ->.
    { apply Nat.eqb_neq. rewrite length_app. simpl. lia. }
    rewrite (filter_failure_split _ _ _ Hf Hpost).
    assert ((length (filter (λ entry, Attempt.status entry = FAILURE) pre ++ [f])
             =? 0)%nat = false) as ->.
    { apply Nat.eqb_neq. rewrite length_app. simpl. lia. }
    rewrite last_snoc. simpl. split.
    + intros Hex. apply filter_success_length in Hex.
      apply Nat.ltb_lt in Hex. by rewrite Hex.
    + intros Hall. by rewrite (filter_success_nil _ Hall).
Qed.

Lemma summarizeAttempts_all_failed pre f :
  Forall (λ a, Attempt.status a = FAILURE) (pre ++ [f]) →
  summarizeAttempts (pre ++ [f])
  = {| Summary.notificationState := FAILED;
       Summary.lastError := Attempt.errorMessage f |}.
Proof.
  intros Hall.
  destruct (summarizeAttempts_rules (pre ++ [f])) as (_ & _ & Hrule).
  destruct (Hrule pre f []) as [_ Hfailed]; [done| |constructor|by auto].
  rewrite Forall_app, Forall_singleton in Hall. by destruct Hall.
Qed.


(** Every list falls under one of the four rules. *)
Lemma last_failure_split attempts :
  Exists (λ a, Attempt.status a = FAILURE) attempts →
  ∃ pre f post,
    attempts = pre ++ f :: post
    ∧ Attempt.status f = FAILURE
    ∧ Forall (λ a, Attempt.status a = SUCCESS) post.
Proof.
  induction attempts as [|a l IH]; [by intros ?%Exists_nil|].
  intros Hex.
  destruct (decide (Exists (λ a, Attempt.status a = FAILURE) l))
    as [Hl|Hl].
  - destruct (IH Hl) as (pre & f & post & -> & Hf & Hpost).
    by exists (a :: pre), f, post.
  - apply Exists_cons in Hex as [Ha|?]; [|done].
    exists [], a, l. repeat split; [done|].
    apply not_Exists_Forall in Hl; [|apply _].
    eapply Forall_impl; [exact Hl|]. simpl. intros x Hx.
    by destruct (Attempt.status x).
Qed.

Lemma summarizeAttempts_cases attempts :
  attempts = []
  ∨ (attempts ≠ [] ∧ Forall (λ a, Attempt.status a ≠ FAILURE) attempts)
  ∨ ∃ pre f post,
      attempts = pre ++ f :: post
      ∧ Attempt.status f = FAILURE
      ∧ Forall (λ a, Attempt.status a = SUCCESS) post
      ∧ (Exists (λ a, Attempt.status a = SUCCESS) attempts
         ∨ Forall (λ a, Attempt.status a = FAILURE) attempts).
Proof.
  destruct attempts as [|a l]; [by left|]. right.
  destruct (decide (Exists (λ a, Attempt.status a = FAILURE) (a :: l)))
    as [Hex|Hnone].
  - right. destruct (last_failure_split _ Hex)
      as (pre & f & post & Heq & Hf & Hpost).
    exists pre, f, post. repeat split; try done.
    destruct (decide (Exists (λ a, Attempt.status a = SUCCESS) (a :: l)))
      as [?|Hno]; [by left|right].
    apply not_Exists_Forall in Hno; [|apply _].
    eapply Forall_impl; [exact Hno|]. simpl. intros x Hx.
    by destruct (Attempt.status x).
  - left. split; [done|]. by apply not_Exists_Forall in Hnone; [|apply _].
Qed.

(** C1. [summarizeAttempts] follows the four rules: the empty list is
    FAILED with the fixed message; a non-empty list without FAILURE is
    SENT with no error; a list whose last FAILURE is [f] is PARTIAL
    when it has a SUCCESS and FAILED when every entry is a FAILURE, in
    both cases with [f]'s error message.  Every list falls under one
    of the four. *)
Theorem summarizeAttempts_four_rules attempts :
  ((attempts = [] →
      summarizeAttempts attempts
      = {| Summary.notificationState := FAILED;
           Summary.lastError :=
             Some (js "No email recipients configured for enquiry notifications") |})
   ∧ (attempts ≠ [] → Forall (λ a, Attempt.status a ≠ FAILURE) attempts →
      summarizeAttempts attempts
      = {| Summary.notificationState := SENT; Summary.lastError := None |})
   ∧ (∀ pre f post,
        attempts = pre ++ f :: post →
        Attempt.status f = FAILURE →
        Forall (λ a, Attempt.status a = SUCCESS) post →
        (Exists (λ a, Attempt.status a = SUCCESS) attempts →
           summarizeAttempts attempts
           = {| Summary.notificationState := PARTIAL;
                Summary.lastError := Attempt.errorMessage f |})
        ∧ (Forall (λ a, Attempt.status a = FAILURE) attempts →
           summarizeAttempts attempts
           = {| Summary.notificationState := FAILED;
                Summary.lastError := Attempt.errorMessage f |})))
  ∧ (attempts = []
     ∨ (attempts ≠ [] ∧ Forall (λ a, Attempt.status a ≠ FAILURE) attempts)
     ∨ ∃ pre f post,
         attempts = pre ++ f :: post
         ∧ Attempt.status f = FAILURE
         ∧ Forall (λ a, Attempt.status a = SUCCESS) post
         ∧ (Exists (λ a, Attempt.status a = SUCCESS) attempts
            ∨ Forall (λ a, Attempt.status a = FAILURE) attempts)).
Proof.
  split; [apply summarizeAttempts_rules|apply summarizeAttempts_cases].
Qed.

End Aggregator.

(** ** The aggregator is a pure function of the list *)

Section AggregatorOnStore.

Implicit Types (σ : Heap.Store) (l : list Attempt.t).

Lemma read_run σ r l :
  σ !! r = Some l → Heap.read r σ = Some (l, σ).
Proof. intros H. unfold Heap.read. by rewrite H. Qed.

Lemma array_length_run σ r l :
  σ !! r = Some l → Heap.array_length r σ = Some (length l, σ).
Proof.
  intros H. unfold Heap.array_length, mbind, Heap.Comp_bind.
  by rewrite (read_run _ _ _ H).
Qed.

Lemma array_filter_run (p : Attempt.t → Prop) `{∀ x, Decision (p x)} σ r l :
  σ !! r = Some l →
  ∃ r', Heap.array_filter p r σ = Some (r', <[r' := filter p l]> σ)
        ∧ σ !! r' = None.
Proof.
  intros Hr. exists (fresh (dom σ)). split.
  - unfold Heap.array_filter, mbind, Heap.Comp_bind.
    by rewrite (read_run _ _ _ Hr).
  - apply not_elem_of_dom, is_fresh.
Qed.

Lemma array_at_last σ r l :
  σ !! r = Some l → Heap.array_at r (-1) σ = Some (last l, σ).
Proof.
  intros Hr. unfold Heap.array_at, mbind, Heap.Comp_bind.
  rewrite (read_run _ _ _ Hr). unfold mret, Heap.Comp_ret.
  do 2 f_equal. change (-1 <? 0) with true. cbv iota.
  rewrite last_lookup. destruct l as [|x l]; [done|].
  assert ((Z.of_nat (length (x :: l)) + -1 <? 0) = false) as ->.
  { apply Z.ltb_ge. simpl length. lia. }
  f_equal. simpl length. lia.
Qed.

Lemma summarizeAttempts_run σ r l :
  σ !! r = Some l →
  ∃ σ', Heap.summarizeAttempts r σ = Some (summarizeAttempts l, σ')
        ∧ σ ⊆ σ'.
Proof.
  intros Hr. unfold Heap.summarizeAttempts, summarizeAttempts.
  unfold mbind at 1. unfold Heap.Comp_bind at 1.
  rewrite (array_length_run _ _ _ Hr).
  destruct (length l =? 0)%nat; [by exists σ|].
  destruct (array_filter_run (λ e, Attempt.status e = FAILURE) σ r l Hr)
    as (rf & Hrun_f & Hfresh_f).
  unfold mbind at 1. unfold Heap.Comp_bind at 1. rewrite Hrun_f.
  set (σ1 := <[rf := _]> σ).
  assert (σ ⊆ σ1) as Hsub1 by by apply insert_subseteq.
  assert (σ1 !! r = Some l) as Hr1 by by eapply lookup_weaken.
  destruct (array_filter_run (λ e, Attempt.status e = SUCCESS) σ1 r l Hr1)
    as (rs & Hrun_s & Hfresh_s).
  unfold mbind at 1. unfold Heap.Comp_bind at 1. rewrite Hrun_s.
  set (σ2 := <[rs := _]> σ1).
  assert (σ1 ⊆ σ2) as Hsub2 by by apply insert_subseteq.
  assert (σ2 !! rf
          = Some (filter (λ e, Attempt.status e = FAILURE) l)) as Hf2.
  { eapply lookup_weaken; [|exact Hsub2]. apply lookup_insert_eq. }
  assert (σ2 !! rs
          = Some (filter (λ e, Attempt.status e = SUCCESS) l)) as Hs2
    by apply lookup_insert_eq.
  unfold mbind at 1. unfold Heap.Comp_bind at 1.
  rewrite (array_at_last _ _ _ Hf2).
  unfold mbind at 1. unfold Heap.Comp_bind at 1.
  rewrite (array_length_run _ _ _ Hf2).
  assert (σ ⊆ σ2) as Hsub by by etrans.
  destruct (length _ =? 0)%nat; [by exists σ2|].
  unfold mbind at 1. unfold Heap.Comp_bind at 1.
  rewrite (array_length_run _ _ _ Hs2).
  destruct (0 <? length _)%nat; by exists σ2.
Qed.

(** C8. [summarizeAttempts] is a pure function of the list it is
    given: run on an array with the elements [l] it returns the value
    the list alone determines, it leaves that array and every array of
    the store as they were, and a second run returns the same value. *)
Theorem summarizeAttempts_pure σ r l :
  σ !! r = Some l →
  ∃ σ1 σ2,
    Heap.summarizeAttempts r σ = Some (summarizeAttempts l, σ1)
    ∧ σ1 !! r = Some l
    ∧ (∀ r' l', σ !! r' = Some l' → σ1 !! r' = Some l')
    ∧ Heap.summarizeAttempts r σ1 = Some (summarizeAttempts l, σ2).
Proof.
  intros Hr.
  destruct (summarizeAttempts_run σ r l Hr) as (σ1 & Hrun1 & Hsub1).
  assert (σ1 !! r = Some l) as Hr1 by by eapply lookup_weaken.
  destruct (summarizeAttempts_run σ1 r l Hr1) as (σ2 & Hrun2 & _).
  exists σ1, σ2. repeat split; [done..| |done].
  intros r' l' H'. by eapply lookup_weaken.
Qed.

End AggregatorOnStore.

(** ** One dispatch of the Mailgun revision *)

Section MailgunDispatch.

Context (buildTextEmailBody buildHtmlEmailBody :
           EnquiryEmailPayload.t → JsString → JsString)
        (messages_create :
           list Mailgun.Call.t → Mailgun.Call.t → Settled Mailgun.Response)
        (env : gmap string JsString)
        (enquiry : EnquiryEmailPayload.t)
        (attachment : option AttachmentPayload.t).

Local Abbreviation sendToRecipient :=
  (Mailgun.sendToRecipient messages_create env enquiry attachment).
Local Abbreviation sendEnquiryEmails :=
  (Mailgun.sendEnquiryEmails buildTextEmailBody buildHtmlEmailBody
     messages_create env enquiry attachment).
Local Abbreviation intendedRecipients :=
  (Mailgun.intendedRecipients buildTextEmailBody buildHtmlEmailBody
     env enquiry).
Local Abbreviation Recorded :=
  (Mailgun.Recorded messages_create env enquiry attachment).
Local Abbreviation Dispatched :=
  (Mailgun.Dispatched messages_create env enquiry attachment).
Local Abbreviation createCall := (Mailgun.createCall enquiry attachment).
Local Abbreviation misconfigurationAttempt :=
  (Mailgun.misconfigurationAttempt env enquiry).
Local Abbreviation successAttempt := (Mailgun.successAttempt enquiry).
Local Abbreviation failureAttempt := (Mailgun.failureAttempt enquiry).

Implicit Types (st : Mailgun.State.t) (r : Mailgun.Recipient.t).
Implicit Types (history calls : list Mailgun.Call.t).
Implicit Types (records : list Attempt.t) (l : list Mailgun.Recipient.t).

(** A mailer is built only from three non-empty settings. *)
Lemma getMailer_Some m :
  Mailgun.getMailer env = Some m →
  truthy (Mailgun.Mailer.fromEmail m) = true
  ∧ env !! "MAILGUN_FROM_EMAIL"%string = Some (Mailgun.Mailer.fromEmail m).
Proof.
  unfold Mailgun.getMailer.
  destruct (env !! "MAILGUN_API_KEY"%string) as [k|]; [|done].
  destruct (env !! "MAILGUN_DOMAIN"%string) as [d|];
    [|by rewrite orb_true_r].
  destruct (env !! "MAILGUN_FROM_EMAIL"%string) as [f|];
    [|by rewrite orb_true_r].
  simpl. destruct (truthy k), (truthy d), (truthy f) eqn:Hf; simpl;
    try discriminate.
  by intros [= <-].
Qed.

Lemma sendToRecipient_run r st :
  ∃ calls a,
    sendToRecipient r st
    = (Normal tt,
       {| Mailgun.State.network := Mailgun.State.network st ++ calls;
          Mailgun.State.attempts := Mailgun.State.attempts st ++ [a] |})
    ∧ Recorded (Mailgun.State.network st) r calls a.
Proof.
  unfold Mailgun.sendToRecipient.
  destruct (Mailgun.getMailer env) as [m|] eqn:Hm; simpl.
  - destruct (getMailer_Some m Hm) as [Hfrom _]. rewrite Hfrom. simpl.
    unfold try_catch, mbind, Async_bind, Mailgun.create.
    destruct (messages_create _ _) as [response|error] eqn:Hcall; simpl.
    + eexists _, _. split; [reflexivity|].
      by eapply Mailgun.Recorded_success.
    + eexists _, _. split; [reflexivity|].
      by eapply Mailgun.Recorded_failure.
  - exists [], (misconfigurationAttempt r). split.
    + unfold Mailgun.push. by rewrite app_nil_r.
    + by apply Mailgun.Recorded_misconfigured.
Qed.

Lemma for_of_sendToRecipient_run l st :
  ∃ calls records,
    for_of l sendToRecipient st
    = (Normal tt,
       {| Mailgun.State.network := Mailgun.State.network st ++ calls;
          Mailgun.State.attempts := Mailgun.State.attempts st ++ records |})
    ∧ Dispatched (Mailgun.State.network st) l calls records.
Proof.
  revert st. induction l as [|r l IH]; intros st.
  - exists [], []. destruct st. simpl. rewrite !app_nil_r.
    split; [done|constructor].
  - destruct (sendToRecipient_run r st) as (calls & a & Hrun & Hrec).
    simpl. unfold mbind, Async_bind. rewrite Hrun.
    edestruct IH as (calls' & records & Hrun' & Hdisp).
    rewrite Hrun'. simpl in *.
    exists (calls ++ calls'), (a :: records). split.
    + by rewrite <- !app_assoc.
    + by econstructor.
Qed.

(** What a dispatch returns, by the two branches of the function. *)
Lemma sendEnquiryEmails_run_empty st :
  intendedRecipients = [] →
  sendEnquiryEmails st
  = (Normal
       {| Outcome.attempts := [Mailgun.syntheticAttempt enquiry];
          Outcome.notificationState := FAILED;
          Outcome.lastError := Some noRecipientsMessage |},
     st).
Proof. intros H. unfold Mailgun.sendEnquiryEmails. by rewrite H. Qed.

Lemma sendEnquiryEmails_run_nonempty st :
  intendedRecipients ≠ [] →
  ∃ calls records,
    sendEnquiryEmails st
    = (Normal
         {| Outcome.attempts := records;
            Outcome.notificationState :=
              Summary.notificationState (summarizeAttempts records);
            Outcome.lastError :=
              Summary.lastError (summarizeAttempts records) |},
       {| Mailgun.State.network := Mailgun.State.network st ++ calls;
          Mailgun.State.attempts := records |})
    ∧ Dispatched (Mailgun.State.network st) intendedRecipients calls records.
Proof.
  intros Hne. unfold Mailgun.sendEnquiryEmails.
  destruct intendedRecipients as [|r l] eqn:Hl; [done|].
  change (length (r :: l) =? 0)%nat with false. cbv iota.
  unfold mbind at 1. unfold Async_bind at 1.
  unfold Mailgun.declareAttempts. cbv beta iota.
  unfold mbind at 1. unfold Async_bind at 1.
  edestruct (for_of_sendToRecipient_run (r :: l))
    as (calls & records & Hrun & Hdisp).
  rewrite Hrun. exists calls, records. split; [done|]. exact Hdisp.
Qed.

(** Facts about the records of a dispatch. *)
Lemma Recorded_shape history r calls a :
  Recorded history r calls a →
  Attempt.recipient a = Mailgun.Recipient.email r
  ∧ Attempt.recipientType a = Mailgun.Recipient.recipientType r
  ∧ Attempt.subject a = buildSubject enquiry
  ∧ (Attempt.status a = SUCCESS → Attempt.errorMessage a = None)
  ∧ (Attempt.status a = FAILURE → Attempt.providerId a = None).
Proof. destruct 1; repeat split; done. Qed.

Lemma Dispatched_Forall2 history l calls records :
  Dispatched history l calls records →
  Forall2 (λ r a, ∃ history' calls', Recorded history' r calls' a) l records.
Proof. induction 1; constructor; eauto. Qed.

Lemma Forall2_Forall_r_shape {A B} (R : A → B → Prop) (xs : list A)
    (ys : list B) :
  Forall2 R xs ys → Forall (λ y, ∃ x, R x y) ys.
Proof. induction 1; constructor; eauto. Qed.

Lemma Dispatched_unconfigured history l calls records :
  Mailgun.getMailer env = None →
  Dispatched history l calls records →
  calls = [] ∧ records = misconfigurationAttempt <$> l.
Proof.
  intros Hm. induction 1 as [|history r rs calls a calls' records Hr _ IH].
  - done.
  - destruct IH as [-> ->].
    destruct Hr as [_|m ? Hm'|m ? Hm']; [done|congruence..].
Qed.

Lemma Dispatched_configured m history l calls records :
  Mailgun.getMailer env = Some m →
  Dispatched history l calls records →
  calls = createCall m (Mailgun.Mailer.fromEmail m) <$> l
  ∧ ∀ i r, l !! i = Some r →
      ∃ a, records !! i = Some a
        ∧ match messages_create (history ++ take i calls)
                  (createCall m (Mailgun.Mailer.fromEmail m) r) with
          | Resolved response => a = successAttempt r response
          | Rejected error => a = failureAttempt r error
          end.
Proof.
  intros Hm. induction 1 as [|history r rs calls a calls' records Hr _ IH].
  - split; [done|]. intros i r Hi. by rewrite lookup_nil in Hi.
  - destruct IH as [-> IH].
    assert (calls = [createCall m (Mailgun.Mailer.fromEmail m) r]
            ∧ match messages_create history
                      (createCall m (Mailgun.Mailer.fromEmail m) r) with
              | Resolved response => a = successAttempt r response
              | Rejected error => a = failureAttempt r error
              end) as [-> Ha].
    { destruct Hr as [Hm'|m' ? Hm' Hc|m' ? Hm' Hc].
      - unfold Mailgun.getMailer in *. congruence.
      - assert (m' = m) as -> by congruence. by rewrite Hc.
      - assert (m' = m) as -> by congruence. by rewrite Hc. }
    split; [done|]. intros [|i] r' Hi; simpl in Hi.
    + injection Hi as <-. exists a. split; [done|].
      simpl. by rewrite app_nil_r.
    + destruct (IH i r' Hi) as (a' & Ha' & Hres). exists a'.
      split; [done|]. simpl. by rewrite <- app_assoc in Hres.
Qed.

(** C2. With a non-empty list of intended recipients the dispatch
    returns, whatever the provider answers, one attempt per recipient:
    as many attempts as recipients, the i-th one carrying the address
    and the class of the i-th recipient. *)
Theorem sendEnquiryEmails_one_attempt_per_recipient st :
  intendedRecipients ≠ [] →
  ∃ outcome st',
    sendEnquiryEmails st = (Normal outcome, st')
    ∧ length (Outcome.attempts outcome) = length intendedRecipients
    ∧ ∀ i r, intendedRecipients !! i = Some r →
        ∃ a, Outcome.attempts outcome !! i = Some a
          ∧ Attempt.recipient a = Mailgun.Recipient.email r
          ∧ Attempt.recipientType a = Mailgun.Recipient.recipientType r.
Proof.
  intros Hne.
  destruct (sendEnquiryEmails_run_nonempty st Hne)
    as (calls & records & Hrun & Hdisp).
  apply Dispatched_Forall2 in Hdisp.
  eexists _, _. split; [exact Hrun|]. simpl. split.
  - symmetry. by eapply Forall2_length.
  - intros i r Hi.
    destruct (Forall2_lookup_l _ _ _ _ _ Hdisp Hi)
      as (a & Ha & history' & calls' & Hrec).
    exists a. split; [done|].
    by destruct (Recorded_shape _ _ _ _ Hrec) as (? & ? & _).
Qed.

(** C4. With no intended recipient the dispatch makes no call to the
    provider and returns the one synthetic attempt (class OTHER,
    recipient "n/a", FAILURE, the fixed message, no provider id) with
    the aggregate FAILED and the same message. *)
Theorem sendEnquiryEmails_no_recipients st :
  intendedRecipients = [] →
  sendEnquiryEmails st
  = (Normal
       {| Outcome.attempts :=
            [ {| Attempt.recipient := js "n/a";
                 Attempt.recipientType := OTHER;
                 Attempt.status := FAILURE;
                 Attempt.subject := buildSubject enquiry;
                 Attempt.errorMessage :=
                   Some (js "No email recipients configured for enquiry notifications");
                 Attempt.providerId := None;
                 Attempt.metadata := None |} ];
          Outcome.notificationState := FAILED;
          Outcome.lastError :=
            Some (js "No email recipients configured for enquiry notifications") |},
     st).
Proof. apply sendEnquiryEmails_run_empty. Qed.

Lemma misconfigurationAttempt_message r :
  Mailgun.getMailer env = None →
  Attempt.errorMessage (misconfigurationAttempt r)
  = Some (js "Mailgun client is not configured.").
Proof. intros Hm. unfold Mailgun.misconfigurationAttempt. by rewrite Hm. Qed.

(** Without a mailer every recipient gets the misconfiguration record
    and nothing is sent. *)
Lemma sendEnquiryEmails_run_unconfigured st :
  Mailgun.getMailer env = None →
  intendedRecipients ≠ [] →
  ∃ st',
    sendEnquiryEmails st
    = (Normal
         {| Outcome.attempts := misconfigurationAttempt <$> intendedRecipients;
            Outcome.notificationState :=
              Summary.notificationState
                (summarizeAttempts
                   (misconfigurationAttempt <$> intendedRecipients));
            Outcome.lastError :=
              Summary.lastError
                (summarizeAttempts
                   (misconfigurationAttempt <$> intendedRecipients)) |},
       st')
    ∧ Mailgun.State.network st' = Mailgun.State.network st.
Proof.
  intros Hm Hne.
  destruct (sendEnquiryEmails_run_nonempty st Hne)
    as (calls & records & Hrun & Hdisp).
  destruct (Dispatched_unconfigured _ _ _ _ Hm Hdisp) as [-> ->].
  eexists. split; [exact Hrun|]. simpl. by rewrite app_nil_r.
Qed.

(** C6. With recipients but no mailer, the dispatch makes no call to
    the provider and records for each recipient, in order, a FAILURE
    with the message "Mailgun client is not configured." and no
    provider id; the aggregate is FAILED with that message, and one
    recipient gives one attempt. *)
Theorem sendEnquiryEmails_unconfigured st :
  Mailgun.getMailer env = None →
  intendedRecipients ≠ [] →
  ∃ outcome st',
    sendEnquiryEmails st = (Normal outcome, st')
    ∧ Mailgun.State.network st' = Mailgun.State.network st
    ∧ length (Outcome.attempts outcome) = length intendedRecipients
    ∧ (∀ i r, intendedRecipients !! i = Some r →
         ∃ a, Outcome.attempts outcome !! i = Some a
           ∧ Attempt.recipient a = Mailgun.Recipient.email r
           ∧ Attempt.recipientType a = Mailgun.Recipient.recipientType r
           ∧ Attempt.status a = FAILURE
           ∧ Attempt.errorMessage a
             = Some (js "Mailgun client is not configured.")
           ∧ Attempt.providerId a = None)
    ∧ Outcome.notificationState outcome = FAILED
    ∧ Outcome.lastError outcome
      = Some (js "Mailgun client is not configured.").
Proof.
  intros Hm Hne.
  destruct (sendEnquiryEmails_run_unconfigured st Hm Hne)
    as (st' & Hrun & Hnetwork).
  eexists _, st'. split; [exact Hrun|]. simpl.
  split; [done|]. split; [by rewrite length_fmap|]. split.
  - intros i r Hi. exists (misconfigurationAttempt r).
    rewrite list_lookup_fmap, Hi.
    repeat split; auto using misconfigurationAttempt_message.
  - destruct (exists_last Hne) as (l & r & ->).
    rewrite fmap_app. change (misconfigurationAttempt <$> [r])
      with [misconfigurationAttempt r].
    rewrite summarizeAttempts_all_failed.
    { split; [done|]. by apply misconfigurationAttempt_message. }
    apply Forall_app. split; [|by repeat constructor].
    apply Forall_fmap, Forall_forall. by intros.
Qed.

(** C9. Every attempt a dispatch returns has no error message when it
    is a SUCCESS and no provider id when it is a FAILURE, and all of
    them carry the subject built from the enquiry. *)
Theorem sendEnquiryEmails_attempt_invariant st :
  ∃ outcome st',
    sendEnquiryEmails st = (Normal outcome, st')
    ∧ Forall (λ a,
                (Attempt.status a = SUCCESS → Attempt.errorMessage a = None)
                ∧ (Attempt.status a = FAILURE → Attempt.providerId a = None)
                ∧ Attempt.subject a = buildSubject enquiry)
        (Outcome.attempts outcome).
Proof.
  assert (intendedRecipients = [] ∨ intendedRecipients ≠ [])
    as [Hnil|Hne] by (destruct intendedRecipients; [by left|by right]).
  - eexists _, _. split; [by apply sendEnquiryEmails_run_empty|].
    simpl. by repeat constructor.
  - destruct (sendEnquiryEmails_run_nonempty st Hne)
      as (calls & records & Hrun & Hdisp).
    eexists _, _. split; [exact Hrun|]. simpl.
    apply Dispatched_Forall2, Forall2_Forall_r_shape in Hdisp.
    eapply Forall_impl; [exact Hdisp|]. intros a (r & h & c & Hrec).
    by destruct (Recorded_shape _ _ _ _ Hrec) as (_ & _ & ? & ? & ?).
Qed.

(** The i-th call of a dispatch and the i-th record belong together. *)
Lemma sendEnquiryEmails_calls st :
  ∃ outcome st',
    sendEnquiryEmails st = (Normal outcome, st')
    ∧ ∀ i call,
        Mailgun.State.network st' !! (length (Mailgun.State.network st) + i)%nat
        = Some call →
        ∃ a r,
          Outcome.attempts outcome !! i = Some a
          ∧ intendedRecipients !! i = Some r
          ∧ Mailgun.MessageData.to (Mailgun.Call.data call)
            = Mailgun.Recipient.email r
          ∧ match messages_create
                    (take (length (Mailgun.State.network st) + i)
                       (Mailgun.State.network st')) call with
            | Resolved response => a = successAttempt r response
            | Rejected error => a = failureAttempt r error
            end.
Proof.
  assert (intendedRecipients = [] ∨ intendedRecipients ≠ [])
    as [Hnil|Hne] by (destruct intendedRecipients; [by left|by right]).
  { eexists _, _. split; [by apply sendEnquiryEmails_run_empty|].
    intros i call Hi. apply lookup_lt_Some in Hi. lia. }
  destruct (sendEnquiryEmails_run_nonempty st Hne)
    as (calls & records & Hrun & Hdisp).
  eexists _, _. split; [exact Hrun|]. simpl. intros i call.
  rewrite lookup_app_r by lia.
  replace (length (Mailgun.State.network st) + i
           - length (Mailgun.State.network st))%nat with i by lia.
  rewrite take_app_add'; [|done].
  destruct (Mailgun.getMailer env) as [m|] eqn:Hm.
  - destruct (Dispatched_configured m _ _ _ _ Hm Hdisp) as [-> Hrec].
    rewrite list_lookup_fmap. intros Hi.
    destruct (intendedRecipients !! i) as [r|] eqn:Hr; [|done].
    injection Hi as <-. destruct (Hrec i r Hr) as (a & Ha & Hres).
    by exists a, r.
  - destruct (Dispatched_unconfigured _ _ _ _ Hm Hdisp) as [-> _].
    by rewrite lookup_nil.
Qed.

(** C7. An error that is an [Error] gives its message, a string gives
    itself, anything else the fallback "Unknown error sending email";
    and in a dispatch the attempt recorded for a call the provider
    rejected is a FAILURE with the normalized message of the error,
    the one for a call it accepted is a SUCCESS whose provider id is
    the [id] of the response when the response is an object with one,
    and null otherwise. *)
Theorem sendEnquiryEmails_normalized_results st :
  (∀ message candidate,
     Mailgun.normalizeErrorMessage (ThrownError message candidate) = message)
  ∧ (∀ s, Mailgun.normalizeErrorMessage (ThrownString s) = s)
  ∧ (∀ candidate,
       Mailgun.normalizeErrorMessage (ThrownObject candidate)
       = js "Unknown error sending email")
  ∧ Mailgun.normalizeErrorMessage ThrownOther
    = js "Unknown error sending email"
  ∧ ∃ outcome st',
      sendEnquiryEmails st = (Normal outcome, st')
      ∧ ∀ i call,
          Mailgun.State.network st'
            !! (length (Mailgun.State.network st) + i)%nat = Some call →
          ∃ a,
            Outcome.attempts outcome !! i = Some a
            ∧ Attempt.recipient a
              = Mailgun.MessageData.to (Mailgun.Call.data call)
            ∧ match messages_create
                      (take (length (Mailgun.State.network st) + i)
                         (Mailgun.State.network st')) call with
              | Rejected error =>
                  Attempt.status a = FAILURE
                  ∧ Attempt.errorMessage a
                    = Some (Mailgun.normalizeErrorMessage error)
              | Resolved (Mailgun.ResponseObject id _) =>
                  Attempt.status a = SUCCESS ∧ Attempt.providerId a = id
              | Resolved Mailgun.ResponseOther =>
                  Attempt.status a = SUCCESS ∧ Attempt.providerId a = None
              end.
Proof.
  do 4 (split; [done|]).
  destruct (sendEnquiryEmails_calls st) as (outcome & st' & Hrun & Hcalls).
  exists outcome, st'. split; [done|]. intros i call Hi.
  destruct (Hcalls i call Hi) as (a & r & Ha & _ & Hto & Hres).
  exists a. split; [done|].
  destruct (messages_create _ _) as [[id message|]|error]; subst a; done.
Qed.


(** C10. A mailer, when there is one, has a non-empty sender address,
    so the misconfiguration error is "Mailgun client is not
    configured." exactly when there is no mailer and is absent
    otherwise; and every attempt of a dispatch that reports a missing
    mailer configuration carries that message. *)
Theorem misconfiguration_means_no_client st :
  (∀ m, Mailgun.getMailer env = Some m →
     truthy_opt (Mailgun.Mailer.fromEmail <$> Mailgun.getMailer env) = true)
  ∧ Mailgun.misconfigurationError (Mailgun.getMailer env)
      (Mailgun.Mailer.fromEmail <$> Mailgun.getMailer env)
    = match Mailgun.getMailer env with
      | None => Some (js "Mailgun client is not configured.")
      | Some _ => None
      end
  ∧ ∃ outcome st',
      sendEnquiryEmails st = (Normal outcome, st')
      ∧ ∀ a, a ∈ Outcome.attempts outcome →
          Attempt.metadata a
          = Some [ ("reason"%string,
                     JsStr (js "missing_mailer_configuration")) ] →
          Attempt.errorMessage a
          = Some (js "Mailgun client is not configured.").
Proof.
  assert (∀ m, Mailgun.getMailer env = Some m →
            truthy_opt (Mailgun.Mailer.fromEmail <$> Mailgun.getMailer env)
            = true) as Hfrom.
  { intros m Hm. rewrite Hm. simpl. by apply getMailer_Some. }
  split; [exact Hfrom|]. split.
  { unfold Mailgun.misconfigurationError.
    destruct (Mailgun.getMailer env) as [m|] eqn:Hm; [|done].
    specialize (Hfrom m eq_refl). simpl in *. by rewrite Hfrom. }
  assert (intendedRecipients = [] ∨ intendedRecipients ≠ [])
    as [Hnil|Hne] by (destruct intendedRecipients; [by left|by right]).
  { eexists _, _. split; [by apply sendEnquiryEmails_run_empty|].
    simpl. intros a Ha%list_elem_of_singleton. by subst a. }
  destruct (sendEnquiryEmails_run_nonempty st Hne)
    as (calls & records & Hrun & Hdisp).
  eexists _, _. split; [exact Hrun|]. simpl.
  apply Dispatched_Forall2, Forall2_Forall_r_shape in Hdisp.
  rewrite Forall_forall in Hdisp. intros a Ha.
  destruct (Hdisp a Ha) as (r & h & c & Hrec).
  destruct Hrec as [Hm|m response _ _|m error _ _].
  - intros _. unfold Mailgun.misconfigurationAttempt. by rewrite Hm.
  - by destruct response.
  - by destruct error.
Qed.

End MailgunDispatch.

(** ** The nodemailer revision throws *)

Section NodemailerDispatch.

Context (buildTextEmailBody buildHtmlEmailBody :
           EnquiryEmailPayload.t → JsString → JsString)
        (smtp : list Nodemailer.Call.t → Nodemailer.Call.t
                → Settled JsValue)
        (earliest : nat)
        (env : gmap string JsString)
        (enquiry : EnquiryEmailPayload.t)
        (attachment : option AttachmentPayload.t).

Local Abbreviation sendEnquiryEmails :=
  (Nodemailer.sendEnquiryEmails buildTextEmailBody buildHtmlEmailBody
     smtp earliest env enquiry attachment).

Implicit Types (network calls : list Nodemailer.Call.t).







End NodemailerDispatch.

(** ** Strings and the recipient resolver *)

Section Strings.

Implicit Types (s piece : JsString) (sep c : N).

Lemma split_nonempty sep s : split sep s ≠ [].
Proof.
  destruct s as [|c s]; simpl; [done|].
  destruct (c =? sep)%N; [done|]. by destruct (split sep s).
Qed.

(** The pieces hold no separator, and joined by it they give the
    string back. *)
Lemma split_pieces sep s : Forall (λ piece, sep ∉ piece) (split sep s).
Proof.
  induction s as [|c s IH]; simpl.
  - repeat constructor. apply not_elem_of_nil.
  - destruct (c =? sep)%N eqn:Hc.
    + constructor; [apply not_elem_of_nil|done].
    + pose proof (split_nonempty sep s) as Hne.
      destruct (split sep s) as [|piece pieces]; [done|].
      inversion_clear IH as [|? ? Hpiece Hrest]. constructor; [|done].
      rewrite not_elem_of_cons. split; [|done].
      apply N.eqb_neq in Hc. congruence.
Qed.

Lemma join_split sep s : joinWith sep (split sep s) = s.
Proof.
  induction s as [|c s IH]; simpl; [done|].
  pose proof (split_nonempty sep s) as Hne.
  destruct (c =? sep)%N eqn:Hc.
  - apply N.eqb_eq in Hc. subst c.
    destruct (split sep s) as [|piece pieces]; [done|].
    simpl in *. by rewrite IH.
  - destruct (split sep s) as [|piece pieces]; [done|].
    destruct pieces; simpl in *; by rewrite <- IH.
Qed.

Lemma split_no_separator sep s : sep ∉ s → split sep s = [s].
Proof.
  induction s as [|c s IH]; simpl; [done|].
  rewrite not_elem_of_cons. intros [Hc Hs].
  assert ((c =? sep)%N = false) as -> by (apply N.eqb_neq; congruence).
  by rewrite (IH Hs).
Qed.

(** [trimStart] removes a run of white space and stops at the first
    code unit that is none. *)
Lemma trimStart_spec s :
  ∃ blank,
    s = blank ++ trimStart s
    ∧ Forall (λ c, isWhiteSpace c = true) blank
    ∧ match trimStart s with
      | c :: _ => isWhiteSpace c = false
      | [] => True
      end.
Proof.
  induction s as [|c s (blank & Hs & Hblank & Hhead)]; simpl.
  - by exists [].
  - destruct (isWhiteSpace c) eqn:Hc.
    + exists (c :: blank). simpl. rewrite <- Hs. by repeat constructor.
    + by exists [].
Qed.

Lemma trimStart_fixed c s :
  isWhiteSpace c = false → trimStart (c :: s) = c :: s.
Proof. intros Hc. simpl. by rewrite Hc. Qed.

(** [trim] removes white space at both ends and nothing else. *)
Lemma trim_spec s :
  ∃ before after,
    s = before ++ trim s ++ after
    ∧ Forall (λ c, isWhiteSpace c = true) before
    ∧ Forall (λ c, isWhiteSpace c = true) after
    ∧ match trim s with
      | c :: _ => isWhiteSpace c = false
      | [] => True
      end
    ∧ match last (trim s) with
      | Some c => isWhiteSpace c = false
      | None => True
      end.
Proof.
  destruct (trimStart_spec s) as (before & Hs & Hbefore & Hhead).
  destruct (trimStart_spec (reverse (trimStart s)))
    as (after & Hr & Hafter & Hlast).
  exists before, (reverse after). unfold trim, trimEnd.
  assert (trimStart s
          = reverse (trimStart (reverse (trimStart s))) ++ reverse after)
    as Hmid.
  { rewrite <- reverse_app, <- Hr. by rewrite reverse_involutive. }
  split; [by rewrite <- Hmid|]. split; [done|].
  split; [by apply Forall_reverse|]. split.
  - destruct (reverse (trimStart (reverse (trimStart s))))
      as [|c t] eqn:Ht; [done|].
    rewrite Hmid in Hhead. exact Hhead.
  - rewrite last_reverse.
    by destruct (trimStart (reverse (trimStart s))).
Qed.

Lemma trimStart_head s :
  match s with c :: _ => isWhiteSpace c = false | [] => True end →
  trimStart s = s.
Proof. destruct s as [|c s]; [done|]. apply trimStart_fixed. Qed.

Lemma trimStart_blank blank s :
  Forall (λ c, isWhiteSpace c = true) blank →
  trimStart (blank ++ s) = trimStart s.
Proof. induction 1 as [|c blank Hc _ IH]; simpl; [done|]. by rewrite Hc. Qed.

Lemma trim_padded before s after :
  Forall (λ c, isWhiteSpace c = true) before →
  Forall (λ c, isWhiteSpace c = true) after →
  s ≠ [] →
  match s with c :: _ => isWhiteSpace c = false | [] => True end →
  match last s with Some c => isWhiteSpace c = false | None => True end →
  trim (before ++ s ++ after) = s.
Proof.
  intros Hbefore Hafter Hne Hhead Hlast. unfold trim, trimEnd.
  rewrite trimStart_blank by done.
  destruct s as [|c s]; [done|]. rewrite <- app_comm_cons.
  rewrite trimStart_fixed by done. rewrite app_comm_cons, reverse_app.
  rewrite trimStart_blank by by apply Forall_reverse.
  rewrite trimStart_head; [apply reverse_involutive|].
  rewrite <- (reverse_involutive (c :: s)), last_reverse in Hlast.
  by destruct (reverse (c :: s)).
Qed.

Lemma trim_blank blank :
  Forall (λ c, isWhiteSpace c = true) blank → trim blank = [].
Proof.
  intros Hblank. unfold trim, trimEnd.
  rewrite <- (app_nil_r blank), trimStart_blank by done. done.
Qed.

(** [split] is the only way to cut a string at its separators, and
    [trim] the only way to take the white space off its ends. *)
Lemma split_app_sep sep piece s :
  sep ∉ piece → split sep (piece ++ sep :: s) = piece :: split sep s.
Proof.
  induction piece as [|c piece IH]; simpl.
  - intros _. by rewrite N.eqb_refl.
  - rewrite not_elem_of_cons. intros [Hc Hpiece].
    assert ((c =? sep)%N = false) as -> by (apply N.eqb_neq; congruence).
    by rewrite (IH Hpiece).
Qed.

Lemma splitOn_split sep s (pieces : list JsString) :
  Resolver.splitOn sep s pieces → pieces = split sep s.
Proof.
  intros (Hne & Hpieces & <-).
  destruct pieces as [|piece pieces]; [done|]. clear Hne.
  revert piece Hpieces.
  induction pieces as [|piece' pieces IH]; intros piece Hpieces;
    inversion_clear Hpieces as [|? ? Hpiece Hrest].
  - simpl. by rewrite split_no_separator.
  - change (joinWith sep (piece :: piece' :: pieces))
      with (piece ++ sep :: joinWith sep (piece' :: pieces)).
    rewrite split_app_sep by done. by rewrite <- (IH piece' Hrest).
Qed.

Lemma trimmed_trim s (t : JsString) : Resolver.trimmed s t → t = trim s.
Proof.
  intros (before & after & -> & Hbefore & Hafter & Hhead & Hlast).
  destruct (decide (t = [])) as [->|Hne].
  - symmetry. apply trim_blank. simpl. by apply Forall_app.
  - symmetry. by apply trim_padded.
Qed.

Lemma Forall2_trimmed_trim (pieces entries : list JsString) :
  Forall2 Resolver.trimmed pieces entries → entries = trim <$> pieces.
Proof.
  induction 1 as [|piece entry pieces entries Hentry _ IH]; [done|].
  rewrite fmap_cons, <- IH. by rewrite <- (trimmed_trim piece entry Hentry).
Qed.

Lemma split_splitOn sep s : Resolver.splitOn sep s (split sep s).
Proof.
  split; [apply split_nonempty|]. split; [apply split_pieces|].
  apply join_split.
Qed.

Lemma trim_trimmed s : Resolver.trimmed s (trim s).
Proof. apply trim_spec. Qed.

End Strings.

Section RecipientResolver.

Context (buildTextEmailBody buildHtmlEmailBody :
           EnquiryEmailPayload.t → JsString → JsString).

Local Abbreviation resolved env enquiry :=
  ((λ r, (Mailgun.Recipient.email r, Mailgun.Recipient.recipientType r))
     <$> Mailgun.intendedRecipients buildTextEmailBody buildHtmlEmailBody
           env enquiry).

Lemma fold_left_push {A B} (f : A → B) (l : list A) (acc : list B) :
  fold_left (λ acc x, acc ++ [f x]) l acc = acc ++ (f <$> l).
Proof.
  revert acc. induction l as [|x l IH]; intros acc; simpl.
  - by rewrite app_nil_r.
  - by rewrite IH, <- app_assoc.
Qed.

Lemma truthy_nonempty (s : JsString) : truthy s = true ↔ s ≠ [].
Proof. by destruct s. Qed.

Lemma getStaffRecipients_set (env : gmap string JsString) staffList :
  getStaffRecipients (<["ENQUIRY_STAFF_EMAIL"%string := staffList]> env)
  = Resolver.staffEntries staffList.
Proof.
  unfold getStaffRecipients, Resolver.staffEntries.
  rewrite lookup_insert_eq. destruct staffList as [|c s]; [done|].
  apply list_filter_iff. intros entry. apply truthy_nonempty.
Qed.

Lemma getStaffRecipients_unset (env : gmap string JsString) :
  env !! "ENQUIRY_STAFF_EMAIL"%string = None → getStaffRecipients env = [].
Proof. intros H. unfold getStaffRecipients. by rewrite H. Qed.

Lemma customerRecipient_trimmed enquiry :
  customerRecipient enquiry
  = if decide (trim (EnquiryEmailPayload.email enquiry) = []) then None
    else Some (trim (EnquiryEmailPayload.email enquiry)).
Proof.
  unfold customerRecipient.
  by destruct (trim (EnquiryEmailPayload.email enquiry)).
Qed.

(** The pairs of [intendedRecipients], from the staff entries and the
    customer recipient. *)
Lemma intendedRecipients_pairs env enquiry :
  resolved env enquiry
  = ((λ address, (address, STAFF)) <$> getStaffRecipients env)
    ++ match customerRecipient enquiry with
       | Some customer => [ (customer, CUSTOMER) ]
       | None => []
       end.
Proof.
  unfold Mailgun.intendedRecipients.
  destruct (customerRecipient enquiry) as [customer|];
    destruct (getStaffRecipients env) as [|s staff];
    cbn -[fold_left]; rewrite ?fold_left_push;
    rewrite ?fmap_app, <- ?list_fmap_compose; simpl;
    rewrite <- ?list_fmap_compose; by rewrite ?app_nil_r.
Qed.

(** C5. The intended recipients are the staff list split on [","],
    trimmed, without its empty entries, as STAFF entries in the order
    listed, followed by the trimmed customer address as one CUSTOMER
    entry when it is not empty.  This is said twice: as an equation
    with [Resolver.resolve], and for whatever pieces the staff list
    splits into at its commas and whatever these and the customer
    address are once the white space at their ends is taken off (such
    pieces and entries always exist).  Nothing is removed for being
    there twice: an address that is both the staff list and the
    customer comes twice, once per class. *)
Theorem intendedRecipients_resolved env staffList enquiry :
  resolved (<["ENQUIRY_STAFF_EMAIL"%string := staffList]> env) enquiry
  = Resolver.resolve staffList (EnquiryEmailPayload.email enquiry)
  ∧ (∀ pieces entries customer,
       Resolver.splitOn comma staffList pieces →
       Forall2 Resolver.trimmed pieces entries →
       Resolver.trimmed (EnquiryEmailPayload.email enquiry) customer →
       resolved (<["ENQUIRY_STAFF_EMAIL"%string := staffList]> env) enquiry
       = ((λ address, (address, STAFF))
            <$> filter (λ entry, entry ≠ []) entries)
         ++ (if decide (customer = []) then []
             else [ (customer, CUSTOMER) ]))
  ∧ (∃ pieces entries customer,
       Resolver.splitOn comma staffList pieces
       ∧ Forall2 Resolver.trimmed pieces entries
       ∧ Resolver.trimmed (EnquiryEmailPayload.email enquiry) customer)
  ∧ (trim staffList = staffList → staffList ≠ [] → comma ∉ staffList →
     EnquiryEmailPayload.email enquiry = staffList →
     resolved (<["ENQUIRY_STAFF_EMAIL"%string := staffList]> env) enquiry
     = [ (staffList, STAFF); (staffList, CUSTOMER) ]).
Proof.
  assert (resolved (<["ENQUIRY_STAFF_EMAIL"%string := staffList]> env)
            enquiry
          = Resolver.resolve staffList (EnquiryEmailPayload.email enquiry))
    as Hres.
  { rewrite intendedRecipients_pairs, getStaffRecipients_set.
    rewrite customerRecipient_trimmed. unfold Resolver.resolve.
    by case_decide. }
  split; [exact Hres|]. split; [|split].
  - intros pieces entries customer Hpieces Hentries Hcustomer. rewrite Hres.
    unfold Resolver.resolve, Resolver.staffEntries.
    rewrite <- (splitOn_split _ _ _ Hpieces).
    rewrite <- (Forall2_trimmed_trim _ _ Hentries).
    by rewrite <- (trimmed_trim _ _ Hcustomer).
  - exists (split comma staffList), (trim <$> split comma staffList),
      (trim (EnquiryEmailPayload.email enquiry)).
    split; [apply split_splitOn|]. split; [|apply trim_trimmed].
    apply Forall2_fmap_r, Forall_Forall2_diag, Forall_forall.
    intros piece _. apply trim_trimmed.
  - intros Htrim Hne Hcomma Hemail. rewrite Hres.
    unfold Resolver.resolve, Resolver.staffEntries.
    rewrite Hemail, (split_no_separator _ _ Hcomma). simpl. rewrite Htrim.
    rewrite filter_cons_True, filter_nil by done. by case_decide.
Qed.

End RecipientResolver.

(** ** Expected failures in the two revisions *)


(** ** The scenarios of the specification *)

Section Scenarios.

Import Examples.

(** Order matters: of two failures the later one gives the error. *)
Lemma scenario_last_failure_wins :
  summarizeAttempts
    [ attempted FAILURE (Some (js "e1")); attempted SUCCESS None;
      attempted FAILURE (Some (js "e2")) ]
  = {| Summary.notificationState := PARTIAL;
       Summary.lastError := Some (js "e2") |}.
Proof.
  destruct (summarizeAttempts_four_rules
              [ attempted FAILURE (Some (js "e1")); attempted SUCCESS None;
                attempted FAILURE (Some (js "e2")) ])
    as ((_ & _ & Hrule) & _).
  destruct (Hrule [ attempted FAILURE (Some (js "e1"));
                    attempted SUCCESS None ]
              (attempted FAILURE (Some (js "e2"))) [])
    as [Hpartial _]; [reflexivity|reflexivity|constructor|].
  apply Hpartial. apply Exists_cons_tl, Exists_cons_hd. reflexivity.
Defined.

(** Scenario B: the provider rejects the second of three recipients,
    and all three have their attempt. *)
Lemma scenario_B_one_attempt_each :
  ∃ outcome st',
    Mailgun.sendEnquiryEmails copyOnly copyOnly (rejecting (js "b@x.com"))
      (withMailgun staff) (enquiryFrom customer) None idle
    = (Normal outcome, st')
    ∧ length (Outcome.attempts outcome)
      = length (Mailgun.intendedRecipients copyOnly copyOnly
                  (withMailgun staff) (enquiryFrom customer))
    ∧ ∀ i r,
        Mailgun.intendedRecipients copyOnly copyOnly
          (withMailgun staff) (enquiryFrom customer) !! i = Some r →
        ∃ a, Outcome.attempts outcome !! i = Some a
          ∧ Attempt.recipient a = Mailgun.Recipient.email r
          ∧ Attempt.recipientType a = Mailgun.Recipient.recipientType r.
Proof.
  apply sendEnquiryEmails_one_attempt_per_recipient.
  vm_compute. discriminate.
Defined.

(** Scenario C: no staff address and no customer address. *)
Lemma scenario_C_no_recipients :
  Mailgun.sendEnquiryEmails copyOnly copyOnly accepting
    (withMailgun []) (enquiryFrom (js "  ")) None idle
  = (Normal
       {| Outcome.attempts :=
            [ {| Attempt.recipient := js "n/a";
                 Attempt.recipientType := OTHER;
                 Attempt.status := FAILURE;
                 Attempt.subject := js "[Free Visual] Ada";
                 Attempt.errorMessage :=
                   Some (js "No email recipients configured for enquiry notifications");
                 Attempt.providerId := None;
                 Attempt.metadata := None |} ];
          Outcome.notificationState := FAILED;
          Outcome.lastError :=
            Some (js "No email recipients configured for enquiry notifications") |},
     idle).
Proof.
  apply (sendEnquiryEmails_no_recipients copyOnly copyOnly accepting
           (withMailgun []) (enquiryFrom (js "  ")) None idle).
  vm_compute. reflexivity.
Defined.

(** A staff list with blanks around its entries, an entry of one
    blank and a comma at its end, and a customer, with blanks around
    the address, who is on the staff list as well: the blanks and the
    empty entries go, and the address comes twice.  So does an address
    that is the whole staff list and the customer. *)
Lemma scenario_same_address_twice :
  (λ r, (Mailgun.Recipient.email r, Mailgun.Recipient.recipientType r))
    <$> Mailgun.intendedRecipients copyOnly copyOnly
          (<["ENQUIRY_STAFF_EMAIL"%string := js " a@x.com , ,c@y.com,"]> ∅)
          (enquiryFrom (js "  c@y.com "))
  = [ (js "a@x.com", STAFF); (js "c@y.com", STAFF);
      (js "c@y.com", CUSTOMER) ]
  ∧ (λ r, (Mailgun.Recipient.email r, Mailgun.Recipient.recipientType r))
      <$> Mailgun.intendedRecipients copyOnly copyOnly
            (<["ENQUIRY_STAFF_EMAIL"%string := js "a@x.com"]> ∅)
            (enquiryFrom (js "a@x.com"))
    = [ (js "a@x.com", STAFF); (js "a@x.com", CUSTOMER) ].
Proof.
  split.
  - destruct (intendedRecipients_resolved copyOnly copyOnly ∅
                (js " a@x.com , ,c@y.com,") (enquiryFrom (js "  c@y.com ")))
      as (_ & Hwords & _ & _).
    rewrite (Hwords [ js " a@x.com "; js " "; js "c@y.com"; [] ]
               [ js "a@x.com"; []; js "c@y.com"; [] ] (js "c@y.com")).
    + vm_compute. reflexivity.
    + split; [discriminate|]. split; [|vm_compute; reflexivity].
      repeat constructor; apply (bool_decide_unpack _); vm_compute; exact I.
    + constructor.
      { exists (js " "), (js " ").
        split; [reflexivity|]. split; [repeat constructor|].
        split; [repeat constructor|]. split; reflexivity. }
      constructor.
      { exists (js " "), [].
        split; [reflexivity|]. split; [repeat constructor|].
        split; [constructor|]. split; exact I. }
      constructor.
      { exists [], [].
        split; [reflexivity|]. split; [constructor|].
        split; [constructor|]. split; reflexivity. }
      constructor; [|constructor].
      exists [], [].
      split; [reflexivity|]. split; [constructor|].
      split; [constructor|]. split; exact I.
    + exists (js "  "), (js " ").
      split; [reflexivity|]. split; [repeat constructor|].
      split; [repeat constructor|]. split; reflexivity.
  - destruct (intendedRecipients_resolved copyOnly copyOnly ∅
                (js "a@x.com") (enquiryFrom (js "a@x.com")))
      as (_ & _ & _ & Htwice).
    apply Htwice.
    + vm_compute. reflexivity.
    + vm_compute. discriminate.
    + apply (bool_decide_unpack _). vm_compute. exact I.
    + reflexivity.
Defined.

(** Scenario D: one staff address and no mailer. *)
Lemma scenario_D_unconfigured :
  ∃ outcome st',
    Mailgun.sendEnquiryEmails copyOnly copyOnly accepting
      (staffOnly (js "a@x.com")) (enquiryFrom []) None idle
    = (Normal outcome, st')
    ∧ Mailgun.State.network st' = Mailgun.State.network idle
    ∧ length (Outcome.attempts outcome) = 1%nat
    ∧ Outcome.notificationState outcome = FAILED
    ∧ Outcome.lastError outcome
      = Some (js "Mailgun client is not configured.").
Proof.
  destruct (sendEnquiryEmails_unconfigured copyOnly copyOnly accepting
              (staffOnly (js "a@x.com")) (enquiryFrom []) None idle)
    as (outcome & st' & Hrun & Hnet & Hlen & _ & Hstate & Herr).
  - vm_compute. reflexivity.
  - vm_compute. discriminate.
  - by exists outcome, st'.
Defined.

(** Scenario B again: the rejected recipient has the provider's
    message. *)
Lemma scenario_B_rejection_message :
  ∃ outcome st' a,
    Mailgun.sendEnquiryEmails copyOnly copyOnly (rejecting (js "b@x.com"))
      (withMailgun staff) (enquiryFrom customer) None idle
    = (Normal outcome, st')
    ∧ Outcome.attempts outcome !! 1%nat = Some a
    ∧ Attempt.recipient a = js "b@x.com"
    ∧ Attempt.status a = FAILURE
    ∧ Attempt.errorMessage a = Some (js "Forbidden").
Proof.
  destruct (sendEnquiryEmails_normalized_results copyOnly copyOnly
              (rejecting (js "b@x.com")) (withMailgun staff)
              (enquiryFrom customer) None idle)
    as (_ & _ & _ & _ & outcome & st' & Hrun & Hcalls).
  pose proof Hrun as Hrun'. vm_compute in Hrun'.
  injection Hrun' as Houtcome Hst.
  specialize (Hcalls 1%nat). rewrite <- Hst in Hcalls.
  destruct (Hcalls _ eq_refl) as (a & Ha & Hto & Hres).
  vm_compute in Hres. destruct Hres as [Hstatus Hmsg].
  exists outcome, st', a. by repeat split.
Defined.

(** The aggregator on a store with one array. *)
Lemma scenario_store_unchanged :
  let l := [ attempted FAILURE (Some (js "e1")); attempted SUCCESS None ] in
  let σ : Heap.Store := {[ 1%positive := l ]} in
  ∃ σ1 σ2,
    Heap.summarizeAttempts 1%positive σ = Some (summarizeAttempts l, σ1)
    ∧ σ1 !! 1%positive = Some l
    ∧ (∀ r' l', σ !! r' = Some l' → σ1 !! r' = Some l')
    ∧ Heap.summarizeAttempts 1%positive σ1 = Some (summarizeAttempts l, σ2).
Proof.
  intros l σ. apply summarizeAttempts_pure. vm_compute. reflexivity.
Defined.

(** Scenario B: the records keep their invariant. *)
Lemma scenario_B_invariant :
  ∃ outcome st',
    Mailgun.sendEnquiryEmails copyOnly copyOnly (rejecting (js "b@x.com"))
      (withMailgun staff) (enquiryFrom customer) None idle
    = (Normal outcome, st')
    ∧ Forall (λ a,
                (Attempt.status a = SUCCESS → Attempt.errorMessage a = None)
                ∧ (Attempt.status a = FAILURE → Attempt.providerId a = None)
                ∧ Attempt.subject a = buildSubject (enquiryFrom customer))
        (Outcome.attempts outcome).
Proof. apply sendEnquiryEmails_attempt_invariant. Defined.

(** With Mailgun configured the sender address is there. *)
Lemma scenario_configured_sender :
  truthy_opt (Mailgun.Mailer.fromEmail
                <$> Mailgun.getMailer (withMailgun staff)) = true.
Proof.
  eapply (proj1 (misconfiguration_means_no_client copyOnly copyOnly
                   accepting (withMailgun staff) (enquiryFrom customer)
                   None idle)).
  vm_compute. reflexivity.
Defined.



(** Scenario A: every send succeeds. *)
Lemma scenario_A_all_sent :
  ∃ outcome st',
    Mailgun.sendEnquiryEmails copyOnly copyOnly accepting
      (withMailgun staff) (enquiryFrom customer) None idle
    = (Normal outcome, st')
    ∧ (λ a, (Attempt.recipient a, Attempt.recipientType a, Attempt.status a))
        <$> Outcome.attempts outcome
      = [ (js "a@x.com", STAFF, SUCCESS); (js "b@x.com", STAFF, SUCCESS);
          (js "c@y.com", CUSTOMER, SUCCESS) ]
    ∧ Outcome.notificationState outcome = SENT
    ∧ Outcome.lastError outcome = None
    ∧ length (Mailgun.State.network st') = 3%nat.
Proof. eexists _, _. split; [vm_compute; reflexivity|]. by vm_compute. Qed.

(** Scenario B: the outcome is PARTIAL with the message of the failure. *)
Lemma scenario_B_partial :
  ∃ outcome st',
    Mailgun.sendEnquiryEmails copyOnly copyOnly (rejecting (js "b@x.com"))
      (withMailgun staff) (enquiryFrom customer) None idle
    = (Normal outcome, st')
    ∧ (λ a, (Attempt.recipient a, Attempt.recipientType a, Attempt.status a))
        <$> Outcome.attempts outcome
      = [ (js "a@x.com", STAFF, SUCCESS); (js "b@x.com", STAFF, FAILURE);
          (js "c@y.com", CUSTOMER, SUCCESS) ]
    ∧ Outcome.notificationState outcome = PARTIAL
    ∧ Outcome.lastError outcome = Some (js "Forbidden").
Proof. eexists _, _. split; [vm_compute; reflexivity|]. by vm_compute. Qed.

(** The nodemailer revision with SMTP configured: it sends one message
    to the staff and one to the customer, and throws what the server
    rejects with. *)
Lemma scenario_smtp_configured :
  Nodemailer.Transport.port <$> Nodemailer.getMailer (withSmtp staff)
  = Some 587
  ∧ (∃ network,
       Nodemailer.sendEnquiryEmails copyOnly copyOnly smtpAccepting 0
         (withSmtp staff) (enquiryFrom customer) None []
       = (Normal tt, network)
       ∧ (λ call, Nodemailer.MailOptions.to (Nodemailer.Call.options call))
           <$> network
         = [ Nodemailer.ToMany [js "a@x.com"; js "b@x.com"];
             Nodemailer.ToOne (js "c@y.com") ])
  ∧ ∃ network,
      Nodemailer.sendEnquiryEmails copyOnly copyOnly smtpRejecting 0
        (withSmtp staff) (enquiryFrom customer) None []
      = (Throw (newError (js "Connection refused")), network).
Proof.
  split; [by vm_compute|]. split.
  - eexists. split; [vm_compute; reflexivity|]. by vm_compute.
  - eexists. vm_compute. reflexivity.
Qed.

End Scenarios.

(** * Further properties of the code *)

(** ** Escaping *)

Section Escaping.

Implicit Types (s t : JsString) (c x y : N).

Lemma replaceAll_app c replacement s t :
  replaceAll c replacement (s ++ t)
  = replaceAll c replacement s ++ replaceAll c replacement t.
Proof.
  induction s as [|x s IH]; simpl; [done|]. by rewrite IH, <- app_assoc.
Qed.

Lemma escapeHtml_app s t : escapeHtml (s ++ t) = escapeHtml s ++ escapeHtml t.
Proof. unfold escapeHtml. by rewrite !replaceAll_app. Qed.

Lemma escapeHtml_unit x : escapeHtml [x] = escapeUnit x.
Proof.
  unfold escapeHtml, escapeUnit.
  destruct (N.eqb_spec x ampersand) as [->|Hamp]; [done|].
  destruct (N.eqb_spec x lessThan) as [->|Hlt]; [done|].
  destruct (N.eqb_spec x greaterThan) as [->|Hgt]; [done|].
  destruct (N.eqb_spec x doubleQuote) as [->|Hdq]; [done|].
  destruct (N.eqb_spec x singleQuote) as [->|Hsq]; [done|].
  apply N.eqb_neq in Hamp, Hlt, Hgt, Hdq, Hsq. simpl.
  rewrite Hamp. simpl. rewrite Hlt. simpl. rewrite Hgt. simpl.
  rewrite Hdq. simpl. by rewrite Hsq.
Qed.

Lemma escapeHtml_cons x s : escapeHtml (x :: s) = escapeUnit x ++ escapeHtml s.
Proof. by rewrite <- escapeHtml_unit, <- escapeHtml_app. Qed.

Lemma escapeUnit_no_markup x :
  Forall (λ c, isMarkup c = false) (escapeUnit x).
Proof.
  unfold escapeUnit.
  destruct (N.eqb_spec x ampersand); [by repeat constructor|].
  destruct (N.eqb_spec x lessThan) as [|Hlt]; [by repeat constructor|].
  destruct (N.eqb_spec x greaterThan) as [|Hgt]; [by repeat constructor|].
  destruct (N.eqb_spec x doubleQuote) as [|Hdq]; [by repeat constructor|].
  destruct (N.eqb_spec x singleQuote) as [|Hsq]; [by repeat constructor|].
  apply N.eqb_neq in Hlt, Hgt, Hdq, Hsq. constructor; [|constructor].
  unfold isMarkup. by rewrite Hlt, Hgt, Hdq, Hsq.
Qed.

Lemma escapeHtml_clean s :
  Forall (λ c, isMarkup c = false) (escapeHtml s).
Proof.
  induction s as [|x s IH]; [constructor|].
  rewrite escapeHtml_cons. apply Forall_app. split; [|done].
  apply escapeUnit_no_markup.
Qed.

(** X1. The escaped text holds none of [<], [>], the double quote and
    the single quote. *)
Theorem escapeHtml_no_markup s :
  Forall (λ c, isMarkup c = false) (escapeHtml s).
Proof. apply escapeHtml_clean. Qed.

Lemma escapeUnit_inj x y s t :
  escapeUnit x ++ s = escapeUnit y ++ t → x = y ∧ s = t.
Proof.
  unfold escapeUnit.
  destruct (N.eqb_spec x ampersand) as [->|?];
    [|destruct (N.eqb_spec x lessThan) as [->|?];
      [|destruct (N.eqb_spec x greaterThan) as [->|?];
        [|destruct (N.eqb_spec x doubleQuote) as [->|?];
          [|destruct (N.eqb_spec x singleQuote) as [->|?]]]]];
    (destruct (N.eqb_spec y ampersand) as [->|?];
     [|destruct (N.eqb_spec y lessThan) as [->|?];
       [|destruct (N.eqb_spec y greaterThan) as [->|?];
         [|destruct (N.eqb_spec y doubleQuote) as [->|?];
           [|destruct (N.eqb_spec y singleQuote) as [->|?]]]]]);
    simpl; intros [=]; subst; done.
Qed.

Lemma escapeUnit_nonempty x : escapeUnit x ≠ [].
Proof.
  unfold escapeUnit. by repeat (case_match; [done|]).
Qed.

(** X2. Escaping loses nothing: two texts with the same escaped form are
    the same text. *)
Theorem escapeHtml_inj s t : escapeHtml s = escapeHtml t → s = t.
Proof.
  revert t. induction s as [|x s IH]; intros [|y t].
  - done.
  - rewrite escapeHtml_cons. change (escapeHtml []) with (@nil N).
    intros H. symmetry in H. apply app_eq_nil in H as [H _].
    by apply escapeUnit_nonempty in H.
  - rewrite escapeHtml_cons. change (escapeHtml []) with (@nil N).
    intros H. apply app_eq_nil in H as [H _].
    by apply escapeUnit_nonempty in H.
  - rewrite !escapeHtml_cons. intros H.
    apply escapeUnit_inj in H as [-> H]. by rewrite (IH t H).
Qed.

Lemma escapeUnit_length x : (1 ≤ length (escapeUnit x))%nat.
Proof.
  pose proof (escapeUnit_nonempty x). destruct (escapeUnit x); [done|].
  simpl. lia.
Qed.

Lemma escapeHtml_length s : (length s ≤ length (escapeHtml s))%nat.
Proof.
  induction s as [|x s IH]; [done|].
  rewrite escapeHtml_cons, length_app. pose proof (escapeUnit_length x).
  simpl. lia.
Qed.

Lemma escapeUnit_plain x :
  x ≠ ampersand → isMarkup x = false → escapeUnit x = [x].
Proof.
  unfold isMarkup, escapeUnit. intros Hamp%N.eqb_neq. rewrite Hamp.
  by intros (((-> & ->)%orb_false_elim & ->)%orb_false_elim
             & ->)%orb_false_elim.
Qed.

Lemma escapeUnit_special x :
  x = ampersand ∨ isMarkup x = true → (2 ≤ length (escapeUnit x))%nat.
Proof.
  unfold isMarkup, escapeUnit. intros H.
  destruct (x =? ampersand)%N eqn:Hamp; [simpl; lia|].
  destruct (x =? lessThan)%N eqn:Hlt; [simpl; lia|].
  destruct (x =? greaterThan)%N eqn:Hgt; [simpl; lia|].
  destruct (x =? doubleQuote)%N eqn:Hdq; [simpl; lia|].
  destruct (x =? singleQuote)%N eqn:Hsq; [simpl; lia|].
  destruct H as [->|H]; done.
Qed.

(** X3. A text is left as it is exactly when it holds none of the five
    special code units; any other text grows. *)
Theorem escapeHtml_fixed_iff s :
  escapeHtml s = s
  ↔ Forall (λ c, c ≠ ampersand ∧ isMarkup c = false) s.
Proof.
  split.
  - intros Hfix.
    assert (length (escapeHtml s) = length s) as Hlen by by rewrite Hfix.
    clear Hfix. induction s as [|x s IH]; [constructor|].
    rewrite escapeHtml_cons, length_app in Hlen.
    pose proof (escapeHtml_length s). pose proof (escapeUnit_length x).
    simpl in Hlen. constructor; [|apply IH; lia].
    destruct (decide (x = ampersand)) as [->|Hamp].
    { pose proof (escapeUnit_special ampersand (or_introl eq_refl)). lia. }
    split; [done|]. destruct (isMarkup x) eqn:Hm; [|done].
    pose proof (escapeUnit_special x (or_intror Hm)). lia.
  - induction 1 as [|x s [Hamp Hm] _ IH]; [done|].
    by rewrite escapeHtml_cons, IH, escapeUnit_plain.
Qed.

End Escaping.

(** ** Line breaks in the HTML cells *)

Section HtmlCells.

Implicit Types (s piece : JsString) (pieces : list JsString) (c x : N).

Lemma joinString_cons_nil pieces :
  pieces ≠ [] →
  joinString lineBreak ([] :: pieces)
  = lineBreak ++ joinString lineBreak pieces.
Proof. by destruct pieces. Qed.

Lemma joinString_cons_head c piece pieces :
  joinString lineBreak ((c :: piece) :: pieces)
  = c :: joinString lineBreak (piece :: pieces).
Proof. by destruct pieces. Qed.

Lemma replaceLineBreaks_pieces s :
  (Forall (λ c, isMarkup c = false) s →
   ∃ pieces,
     pieces ≠ []
     ∧ replaceLineBreaks s = joinString lineBreak pieces
     ∧ Forall (Forall (λ c, isMarkup c = false)) pieces)
  ∧ ∀ x,
      Forall (λ c, isMarkup c = false) (x :: s) →
      ∃ pieces,
        pieces ≠ []
        ∧ replaceLineBreaks (x :: s) = joinString lineBreak pieces
        ∧ Forall (Forall (λ c, isMarkup c = false)) pieces.
Proof.
  induction s as [|y s [IHs IHcons]].
  - split.
    + intros _. exists [[]]. split; [done|]. split; [done|].
      repeat constructor.
    + intros x Hx. simpl. destruct (x =? 10)%N.
      * exists [[]; []]. split; [done|]. split; [done|].
        repeat constructor.
      * exists [[x]]. split; [done|]. split; [done|].
        constructor; [exact Hx|constructor].
  - split; [apply IHcons|]. intros x Hx.
    inversion_clear Hx as [|? ? Hx0 Hrest].
    change (replaceLineBreaks (x :: y :: s))
      with (if (x =? 10)%N then lineBreak ++ replaceLineBreaks (y :: s)
            else if (x =? 13)%N && (y =? 10)%N
                 then lineBreak ++ replaceLineBreaks s
                 else x :: replaceLineBreaks (y :: s)).
    destruct (IHcons y Hrest) as (pieces & Hne & Heq & Hall).
    destruct (x =? 10)%N.
    { exists ([] :: pieces). rewrite joinString_cons_nil, Heq by done.
      split; [done|]. split; [done|]. by constructor. }
    destruct ((x =? 13)%N && (y =? 10)%N).
    { inversion_clear Hrest as [|? ? _ Hs].
      destruct (IHs Hs) as (pieces' & Hne' & Heq' & Hall').
      exists ([] :: pieces'). rewrite joinString_cons_nil, Heq' by done.
      split; [done|]. split; [done|]. by constructor. }
    destruct pieces as [|piece pieces]; [done|].
    inversion_clear Hall as [|? ? Hpiece Hpieces].
    exists ((x :: piece) :: pieces).
    rewrite joinString_cons_head, Heq. split; [done|]. split; [done|].
    constructor; [by constructor|done].
Qed.

(** X4. A cell made by [safeHtml] from a text that is not blank is a
    sequence of pieces joined by ["<br />"], and no piece holds [<],
    [>] or a quote: the text cannot bring markup of its own.  A missing
    or blank text gives the dash placeholder. *)
Theorem safeHtml_markup_free value :
  (trim value ≠ [] →
   ∃ pieces,
     safeHtml (Some value) = joinString lineBreak pieces
     ∧ Forall (Forall (λ c, isMarkup c = false)) pieces)
  ∧ (trim value = [] → safeHtml (Some value) = dashPlaceholder)
  ∧ safeHtml None = dashPlaceholder.
Proof.
  split; [|split; [|done]].
  - intros Hne. unfold safeHtml.
    assert (truthy value = true) as ->.
    { destruct value; [|done]. by destruct Hne. }
    assert ((0 <? length (trim value))%nat = true) as ->.
    { apply Nat.ltb_lt. destruct (trim value); [done|]. simpl. lia. }
    simpl.
    destruct (proj1 (replaceLineBreaks_pieces (escapeHtml (trim value)))
                (escapeHtml_clean _)) as (pieces & _ & Heq & Hall).
    by exists pieces.
  - intros Hnil. unfold safeHtml. rewrite Hnil. simpl.
    by rewrite andb_false_r.
Qed.

End HtmlCells.

(** ** More on the aggregator *)

Section AggregatorAlgebra.

Implicit Types (l : list Attempt.t) (a : Attempt.t).

Lemma filter_nil_Forall {A} (P : A → Prop) `{∀ x, Decision (P x)}
    (xs : list A) :
  filter P xs = [] ↔ Forall (λ x, ¬ P x) xs.
Proof.
  induction xs as [|x xs IH]; [by split; [constructor|]|].
  rewrite filter_cons, Forall_cons. case_decide; [|tauto].
  split; [done|]. by intros [? _].
Qed.

Lemma not_failure_success a :
  Attempt.status a ≠ FAILURE ↔ Attempt.status a = SUCCESS.
Proof. by destruct (Attempt.status a). Qed.

Lemma not_success_failure a :
  Attempt.status a ≠ SUCCESS ↔ Attempt.status a = FAILURE.
Proof. by destruct (Attempt.status a). Qed.

Lemma no_failure_all_success l :
  ¬ Exists (λ a, Attempt.status a = FAILURE) l →
  Forall (λ a, Attempt.status a = SUCCESS) l.
Proof.
  intros H%not_Exists_Forall; [|apply _].
  eapply Forall_impl; [exact H|]. intros a. apply not_failure_success.
Qed.

Lemma no_success_all_failure l :
  ¬ Exists (λ a, Attempt.status a = SUCCESS) l →
  Forall (λ a, Attempt.status a = FAILURE) l.
Proof.
  intros H%not_Exists_Forall; [|apply _].
  eapply Forall_impl; [exact H|]. intros a. apply not_success_failure.
Qed.

Lemma summarizeAttempts_sent l :
  l ≠ [] → Forall (λ a, Attempt.status a = SUCCESS) l →
  summarizeAttempts l
  = {| Summary.notificationState := SENT; Summary.lastError := None |}.
Proof.
  intros Hne Hall. apply summarizeAttempts_rules; [done|].
  eapply Forall_impl; [exact Hall|]. intros a. apply not_failure_success.
Qed.

Lemma summarizeAttempts_failed l :
  Forall (λ a, Attempt.status a = FAILURE) l →
  Summary.notificationState (summarizeAttempts l) = FAILED.
Proof.
  intros Hall. destruct l as [|a l] using rev_ind; [done|].
  by rewrite summarizeAttempts_all_failed.
Qed.

Lemma summarizeAttempts_partial l :
  Exists (λ a, Attempt.status a = SUCCESS) l →
  Exists (λ a, Attempt.status a = FAILURE) l →
  Summary.notificationState (summarizeAttempts l) = PARTIAL.
Proof.
  intros Hs Hf.
  destruct (last_failure_split l Hf) as (pre & f & post & Heq & Hst & Hpost).
  destruct (summarizeAttempts_rules l) as (_ & _ & Hrule).
  destruct (Hrule pre f post Heq Hst Hpost) as [Hpartial _].
  by rewrite Hpartial.
Qed.

(** The three cases a list falls into. *)
Lemma attempts_trichotomy l :
  (l ≠ [] ∧ Forall (λ a, Attempt.status a = SUCCESS) l)
  ∨ Forall (λ a, Attempt.status a = FAILURE) l
  ∨ (Exists (λ a, Attempt.status a = SUCCESS) l
     ∧ Exists (λ a, Attempt.status a = FAILURE) l).
Proof.
  destruct (decide (Exists (λ a, Attempt.status a = FAILURE) l)) as [Hf|Hf];
    destruct (decide (Exists (λ a, Attempt.status a = SUCCESS) l))
      as [Hs|Hs].
  - by right; right.
  - right; left. by apply no_success_all_failure.
  - left. split; [by intros ->; apply Exists_nil in Hs|].
    by apply no_failure_all_success.
  - right; left. by apply no_success_all_failure.
Qed.

Lemma all_success_no_failure l :
  Forall (λ a, Attempt.status a = SUCCESS) l →
  ¬ Exists (λ a, Attempt.status a = FAILURE) l.
Proof.
  intros Hall Hex. apply Exists_exists in Hex as (a & Ha & Hf).
  rewrite Forall_forall in Hall. specialize (Hall a Ha). congruence.
Qed.

Lemma all_failure_no_success l :
  Forall (λ a, Attempt.status a = FAILURE) l →
  ¬ Exists (λ a, Attempt.status a = SUCCESS) l.
Proof.
  intros Hall Hex. apply Exists_exists in Hex as (a & Ha & Hf).
  rewrite Forall_forall in Hall. specialize (Hall a Ha). congruence.
Qed.

Lemma summarizeAttempts_state_cases l :
  (Summary.notificationState (summarizeAttempts l) = SENT
   ↔ l ≠ [] ∧ Forall (λ a, Attempt.status a = SUCCESS) l)
  ∧ (Summary.notificationState (summarizeAttempts l) = FAILED
     ↔ Forall (λ a, Attempt.status a = FAILURE) l)
  ∧ (Summary.notificationState (summarizeAttempts l) = PARTIAL
     ↔ Exists (λ a, Attempt.status a = SUCCESS) l
       ∧ Exists (λ a, Attempt.status a = FAILURE) l)
  ∧ Summary.notificationState (summarizeAttempts l) ≠ PENDING.
Proof.
  destruct (attempts_trichotomy l) as [[Hne Hs]|[Hf|[Hs Hf]]].
  - rewrite (summarizeAttempts_sent l Hne Hs). simpl.
    pose proof (all_success_no_failure l Hs) as Hnf.
    repeat split; try done.
    + intros Hall. destruct l as [|a l]; [done|].
      inversion_clear Hs. inversion_clear Hall. congruence.
    + by intros [_ ?].
  - rewrite (summarizeAttempts_failed l Hf).
    pose proof (all_failure_no_success l Hf) as Hns.
    repeat split; try done.
    + intros [Hne Hs]. destruct l as [|a l]; [done|].
      inversion_clear Hs. inversion_clear Hf. congruence.
    + by intros [? _].
  - rewrite (summarizeAttempts_partial l Hs Hf).
    repeat split; try done.
    + intros [_ Hall]. by apply all_success_no_failure in Hall.
    + intros Hall. by apply all_failure_no_success in Hall.
Qed.

(** X5. The state tells what the attempts were: SENT exactly for a
    non-empty list of successes, FAILED exactly for a list without a
    success (the empty list too), PARTIAL exactly for a list with a
    success and a failure; PENDING is never the result. *)
Theorem summarizeAttempts_state_iff l :
  (Summary.notificationState (summarizeAttempts l) = SENT
   ↔ l ≠ [] ∧ Forall (λ a, Attempt.status a = SUCCESS) l)
  ∧ (Summary.notificationState (summarizeAttempts l) = FAILED
     ↔ Forall (λ a, Attempt.status a = FAILURE) l)
  ∧ (Summary.notificationState (summarizeAttempts l) = PARTIAL
     ↔ Exists (λ a, Attempt.status a = SUCCESS) l
       ∧ Exists (λ a, Attempt.status a = FAILURE) l)
  ∧ Summary.notificationState (summarizeAttempts l) ≠ PENDING.
Proof. apply summarizeAttempts_state_cases. Qed.

(** X6. The state does not depend on the order of the attempts (the
    last error does). *)
Theorem summarizeAttempts_state_permutation l1 l2 :
  l1 ≡ₚ l2 →
  Summary.notificationState (summarizeAttempts l1)
  = Summary.notificationState (summarizeAttempts l2).
Proof.
  intros Hperm. unfold summarizeAttempts.
  rewrite (Permutation_length Hperm).
  rewrite (Permutation_length
             (filter_Permutation (λ e, Attempt.status e = FAILURE) _ _ Hperm)).
  rewrite (Permutation_length
             (filter_Permutation (λ e, Attempt.status e = SUCCESS) _ _ Hperm)).
  destruct (length l2 =? 0)%nat; [done|].
  destruct (length (filter _ l2) =? 0)%nat; [done|].
  by destruct (0 <? length (filter _ l2))%nat.
Qed.

Lemma summarizeAttempts_lastError l :
  l ≠ [] →
  Summary.lastError (summarizeAttempts l)
  = last (filter (λ e, Attempt.status e = FAILURE) l) ≫= Attempt.errorMessage.
Proof.
  intros Hne. unfold summarizeAttempts. destruct l as [|a l]; [done|].
  change (length (a :: l) =? 0)%nat with false. cbv iota.
  destruct (filter (λ e, Attempt.status e = FAILURE) (a :: l)) eqn:Hf;
    [done|].
  simpl length. change (S _ =? 0)%nat with false. cbv iota.
  by destruct (0 <? _)%nat.
Qed.

(** X7. Two batches put together: the state is SENT exactly when both
    are SENT and FAILED exactly when both are FAILED, and the last error
    is that of the second batch when it has a failure and that of the
    first batch otherwise. *)
Theorem summarizeAttempts_app l1 l2 :
  l1 ≠ [] → l2 ≠ [] →
  (Summary.notificationState (summarizeAttempts (l1 ++ l2)) = SENT
   ↔ Summary.notificationState (summarizeAttempts l1) = SENT
     ∧ Summary.notificationState (summarizeAttempts l2) = SENT)
  ∧ (Summary.notificationState (summarizeAttempts (l1 ++ l2)) = FAILED
     ↔ Summary.notificationState (summarizeAttempts l1) = FAILED
       ∧ Summary.notificationState (summarizeAttempts l2) = FAILED)
  ∧ Summary.lastError (summarizeAttempts (l1 ++ l2))
    = if decide (Exists (λ a, Attempt.status a = FAILURE) l2)
      then Summary.lastError (summarizeAttempts l2)
      else Summary.lastError (summarizeAttempts l1).
Proof.
  intros Hne1 Hne2.
  destruct (summarizeAttempts_state_cases (l1 ++ l2)) as (Hs & Hf & _ & _).
  destruct (summarizeAttempts_state_cases l1) as (Hs1 & Hf1 & _ & _).
  destruct (summarizeAttempts_state_cases l2) as (Hs2 & Hf2 & _ & _).
  rewrite Hs, Hf, Hs1, Hf1, Hs2, Hf2, !Forall_app.
  split; [|split].
  - split; [by intros (_ & ? & ?)|]. intros [[_ ?] [_ ?]].
    split; [|done]. by destruct l1.
  - done.
  - rewrite !summarizeAttempts_lastError by (by try destruct l1).
    rewrite filter_app. case_decide as Hex.
    + destruct (filter (λ e, Attempt.status e = FAILURE) l2)
        as [|f fs] eqn:Hfil using rev_ind.
      * apply filter_nil_Forall in Hfil.
        by apply Forall_not_Exists in Hfil.
      * by rewrite app_assoc, !last_snoc.
    + apply not_Exists_Forall in Hex; [|apply _].
      by rewrite (proj2 (filter_nil_Forall _ l2) Hex), app_nil_r.
Qed.

End AggregatorAlgebra.

(** ** More on the recipient resolver *)

Section ResolverShape.

Context (buildTextEmailBody buildHtmlEmailBody :
           EnquiryEmailPayload.t → JsString → JsString).

Implicit Types (s : JsString) (c : N) (env : gmap string JsString).

Lemma trim_fixed s :
  match s with c :: _ => isWhiteSpace c = false | [] => True end →
  match last s with Some c => isWhiteSpace c = false | None => True end →
  trim s = s.
Proof.
  intros Hhead Hlast. unfold trim, trimEnd.
  rewrite (trimStart_head s Hhead), trimStart_head.
  - apply reverse_involutive.
  - rewrite <- (reverse_involutive s), last_reverse in Hlast.
    by destruct (reverse s).
Qed.

Lemma trim_idemp s : trim (trim s) = trim s.
Proof.
  destruct (trim_spec s) as (_ & _ & _ & _ & _ & Hhead & Hlast).
  by apply trim_fixed.
Qed.

Lemma trim_elem_of c s : c ∈ trim s → c ∈ s.
Proof.
  destruct (trim_spec s) as (before & after & Hs & _).
  intros Hc. rewrite Hs, !elem_of_app. by right; left.
Qed.

Lemma split_length sep s :
  length (split sep s) = S (length (filter (λ c, c = sep) s)).
Proof.
  induction s as [|c s IH]; [done|]. simpl.
  pose proof (split_nonempty sep s) as Hne.
  destruct (N.eqb_spec c sep) as [->|Hc].
  - rewrite filter_cons_True by done. simpl. by rewrite IH.
  - rewrite filter_cons_False by done.
    destruct (split sep s); [done|]. by rewrite <- IH.
Qed.

Lemma getStaffRecipients_clean env :
  Forall (λ entry, entry ≠ [] ∧ trim entry = entry ∧ comma ∉ entry)
    (getStaffRecipients env)
  ∧ ∀ value,
      env !! "ENQUIRY_STAFF_EMAIL"%string = Some value →
      (length (getStaffRecipients env)
       ≤ S (length (filter (λ c, c = comma) value)))%nat.
Proof.
  unfold getStaffRecipients.
  destruct (env !! "ENQUIRY_STAFF_EMAIL"%string) as [value|];
    [|split; [constructor|done]].
  destruct (truthy value); simpl;
    [|split; [constructor|intros; simpl; lia]].
  split.
  - apply Forall_forall. intros entry [Htruthy Hin]%list_elem_of_filter.
    apply list_elem_of_fmap in Hin as (piece & -> & Hpiece).
    split; [by destruct (trim piece)|]. split; [apply trim_idemp|].
    intros Hcomma%trim_elem_of.
    pose proof (split_pieces comma value) as Hpieces.
    rewrite Forall_forall in Hpieces. by apply (Hpieces piece).
  - intros ? [= <-].
    etrans; [apply length_filter|]. by rewrite length_fmap, split_length.
Qed.

(** X8. No staff recipient is empty, none has white space at either end
    and none holds a comma; there are at most as many as the setting
    has commas, plus one. *)
Theorem getStaffRecipients_entries env :
  Forall (λ entry, entry ≠ [] ∧ trim entry = entry ∧ comma ∉ entry)
    (getStaffRecipients env)
  ∧ ∀ value,
      env !! "ENQUIRY_STAFF_EMAIL"%string = Some value →
      (length (getStaffRecipients env)
       ≤ S (length (filter (λ c, c = comma) value)))%nat.
Proof. apply getStaffRecipients_clean. Qed.

Lemma customerRecipient_shape enquiry customer :
  customerRecipient enquiry = Some customer →
  customer ≠ [] ∧ trim customer = customer.
Proof.
  unfold customerRecipient.
  destruct (trim (EnquiryEmailPayload.email enquiry)) as [|c t] eqn:Ht;
    [done|].
  simpl. intros [= <-]. split; [done|]. rewrite <- Ht. apply trim_idemp.
Qed.

(** The array [intendedRecipients], entry by entry. *)
Lemma intendedRecipients_entries env enquiry :
  Mailgun.intendedRecipients buildTextEmailBody buildHtmlEmailBody env enquiry
  = ((λ address,
        {| Mailgun.Recipient.email := address;
           Mailgun.Recipient.recipientType := STAFF;
           Mailgun.Recipient.textBody :=
             buildTextEmailBody enquiry staffMessage;
           Mailgun.Recipient.htmlBody :=
             buildHtmlEmailBody enquiry staffMessage |})
       <$> getStaffRecipients env)
    ++ match customerRecipient enquiry with
       | Some customer =>
           [ {| Mailgun.Recipient.email := customer;
                Mailgun.Recipient.recipientType := CUSTOMER;
                Mailgun.Recipient.textBody :=
                  buildTextEmailBody enquiry customerMessage;
                Mailgun.Recipient.htmlBody :=
                  buildHtmlEmailBody enquiry customerMessage |} ]
       | None => []
       end.
Proof.
  unfold Mailgun.intendedRecipients.
  destruct (customerRecipient enquiry) as [customer|];
    destruct (getStaffRecipients env) as [|s staff];
    cbn -[fold_left]; rewrite ?fold_left_push; simpl;
    by rewrite ?app_nil_r.
Qed.

(** X9. The intended recipients are staff entries followed by at most
    one customer entry; a staff entry carries the bodies built with the
    staff copy, the customer entry those built with the customer copy;
    no entry is of class OTHER, and no address is empty or has white
    space at either end. *)
Theorem intendedRecipients_shape env enquiry :
  ∃ staffEntries customerEntries,
    Mailgun.intendedRecipients buildTextEmailBody buildHtmlEmailBody
      env enquiry
    = staffEntries ++ customerEntries
    ∧ Forall (λ r,
                Mailgun.Recipient.recipientType r = STAFF
                ∧ Mailgun.Recipient.textBody r
                  = buildTextEmailBody enquiry staffMessage
                ∧ Mailgun.Recipient.htmlBody r
                  = buildHtmlEmailBody enquiry staffMessage)
        staffEntries
    ∧ Forall (λ r,
                Mailgun.Recipient.recipientType r = CUSTOMER
                ∧ Mailgun.Recipient.textBody r
                  = buildTextEmailBody enquiry customerMessage
                ∧ Mailgun.Recipient.htmlBody r
                  = buildHtmlEmailBody enquiry customerMessage)
        customerEntries
    ∧ (length customerEntries ≤ 1)%nat
    ∧ Forall (λ r,
                Mailgun.Recipient.email r ≠ []
                ∧ trim (Mailgun.Recipient.email r) = Mailgun.Recipient.email r)
        (staffEntries ++ customerEntries).
Proof.
  rewrite intendedRecipients_entries. eexists _, _. split; [reflexivity|].
  split; [by apply Forall_fmap, Forall_forall|].
  destruct (getStaffRecipients_clean env) as [Hstaff _].
  split; [destruct (customerRecipient enquiry); by repeat constructor|].
  split; [destruct (customerRecipient enquiry); simpl; lia|].
  apply Forall_app. split.
  - apply Forall_fmap. eapply Forall_impl; [exact Hstaff|].
    simpl. by intros entry (? & ? & _).
  - destruct (customerRecipient enquiry) as [customer|] eqn:Hc;
      [|constructor].
    constructor; [|constructor]. simpl.
    by apply (customerRecipient_shape enquiry).
Qed.

End ResolverShape.

(** ** More on the Mailgun dispatch *)

Section MailgunCalls.

Context (buildTextEmailBody buildHtmlEmailBody :
           EnquiryEmailPayload.t → JsString → JsString)
        (messages_create :
           list Mailgun.Call.t → Mailgun.Call.t → Settled Mailgun.Response)
        (env : gmap string JsString)
        (enquiry : EnquiryEmailPayload.t)
        (attachment : option AttachmentPayload.t).

Local Abbreviation sendEnquiryEmails :=
  (Mailgun.sendEnquiryEmails buildTextEmailBody buildHtmlEmailBody
     messages_create env enquiry attachment).
Local Abbreviation intendedRecipients :=
  (Mailgun.intendedRecipients buildTextEmailBody buildHtmlEmailBody
     env enquiry).
Local Abbreviation Recorded :=
  (Mailgun.Recorded messages_create env enquiry attachment).
Local Abbreviation Dispatched :=
  (Mailgun.Dispatched messages_create env enquiry attachment).
Local Abbreviation createCall := (Mailgun.createCall enquiry attachment).

Implicit Types (st : Mailgun.State.t) (r : Mailgun.Recipient.t).
Implicit Types (m : Mailgun.Mailer.t) (a : Attempt.t).

Lemma getMailer_fields m :
  Mailgun.getMailer env = Some m →
  env !! "MAILGUN_API_KEY"%string
  = Some (Mailgun.Client.key (Mailgun.Mailer.client m))
  ∧ env !! "MAILGUN_DOMAIN"%string = Some (Mailgun.Mailer.domain m)
  ∧ env !! "MAILGUN_FROM_EMAIL"%string = Some (Mailgun.Mailer.fromEmail m)
  ∧ Mailgun.Client.url (Mailgun.Mailer.client m)
    = env !! "MAILGUN_API_BASE_URL"%string
  ∧ Mailgun.Client.username (Mailgun.Mailer.client m) = js "api".
Proof.
  unfold Mailgun.getMailer.
  destruct (env !! "MAILGUN_API_KEY"%string) as [k|]; [|done].
  destruct (env !! "MAILGUN_DOMAIN"%string) as [d|];
    [|by rewrite orb_true_r].
  destruct (env !! "MAILGUN_FROM_EMAIL"%string) as [f|];
    [|by rewrite orb_true_r].
  destruct (_ || _); [done|]. by intros [= <-].
Qed.

(** With a mailer, what a dispatch returns and the calls it makes. *)
Lemma sendEnquiryEmails_run_configured st m :
  Mailgun.getMailer env = Some m →
  ∃ outcome st',
    sendEnquiryEmails st = (Normal outcome, st')
    ∧ Mailgun.State.network st'
      = Mailgun.State.network st
        ++ (createCall m (Mailgun.Mailer.fromEmail m) <$> intendedRecipients).
Proof.
  intros Hm.
  assert (intendedRecipients = [] ∨ intendedRecipients ≠ [])
    as [Hnil|Hne] by (destruct intendedRecipients; [by left|by right]).
  - eexists _, _.
    split; [by apply sendEnquiryEmails_run_empty|].
    by rewrite Hnil, app_nil_r.
  - destruct (sendEnquiryEmails_run_nonempty buildTextEmailBody
                buildHtmlEmailBody messages_create env enquiry attachment
                st Hne) as (calls & records & Hrun & Hdisp).
    destruct (Dispatched_configured _ _ _ _ m _ _ _ _ Hm Hdisp) as [-> _].
    by eexists _, _.
Qed.

(** X10. With a mailer the dispatch adds to the log of calls exactly
    one call per intended recipient, in order and whatever the provider
    answers: addressed to the recipient, sent from the configured
    sender through the configured domain and key, with the subject of
    the enquiry, the bodies of the recipient's class and the attachment
    when there is one.  The calls made before stay in the log. *)
Theorem sendEnquiryEmails_one_call_per_recipient st m :
  Mailgun.getMailer env = Some m →
  ∃ outcome st',
    sendEnquiryEmails st = (Normal outcome, st')
    ∧ take (length (Mailgun.State.network st)) (Mailgun.State.network st')
      = Mailgun.State.network st
    ∧ Forall2
        (λ r call,
           let data := Mailgun.Call.data call in
           Mailgun.MessageData.to data = Mailgun.Recipient.email r
           ∧ env !! "MAILGUN_FROM_EMAIL"%string
             = Some (Mailgun.MessageData.from data)
           ∧ env !! "MAILGUN_DOMAIN"%string = Some (Mailgun.Call.domain call)
           ∧ env !! "MAILGUN_API_KEY"%string
             = Some (Mailgun.Client.key (Mailgun.Call.client call))
           ∧ Mailgun.MessageData.subject data = buildSubject enquiry
           ∧ Mailgun.MessageData.text data = Mailgun.Recipient.textBody r
           ∧ Mailgun.MessageData.html data = Mailgun.Recipient.htmlBody r
           ∧ Mailgun.MessageData.attachment data
             = (λ payload,
                  [ {| Mailgun.Attachment.data :=
                         AttachmentPayload.data payload;
                       Mailgun.Attachment.filename :=
                         AttachmentPayload.filename payload;
                       Mailgun.Attachment.contentType :=
                         AttachmentPayload.mimeType payload |} ])
               <$> attachment)
        intendedRecipients
        (drop (length (Mailgun.State.network st)) (Mailgun.State.network st')).
Proof.
  intros Hm.
  destruct (sendEnquiryEmails_run_configured st m Hm)
    as (outcome & st' & Hrun & Hnet).
  destruct (getMailer_fields m Hm) as (Hkey & Hdomain & Hfrom & _).
  exists outcome, st'. split; [done|]. rewrite Hnet.
  split; [by rewrite take_app_length|]. rewrite drop_app_length.
  apply Forall2_fmap_r, Forall_Forall2_diag, Forall_forall.
  intros r _. simpl. repeat split; done.
Qed.

Lemma Dispatched_records history l calls records :
  Dispatched history l calls records →
  Forall (λ a, ∃ r history' calls', Recorded history' r calls' a) records.
Proof.
  intros Hdisp%Dispatched_Forall2.
  by apply (Forall2_Forall_r_shape _ _ _ Hdisp).
Qed.

(** X11. With a mailer, at least one recipient and a provider that
    accepts every call, every attempt is a SUCCESS and the outcome is
    SENT without an error. *)
Theorem sendEnquiryEmails_all_accepted st m :
  Mailgun.getMailer env = Some m →
  intendedRecipients ≠ [] →
  (∀ history call, ∃ response,
     messages_create history call = Resolved response) →
  ∃ outcome st',
    sendEnquiryEmails st = (Normal outcome, st')
    ∧ Forall (λ a, Attempt.status a = SUCCESS) (Outcome.attempts outcome)
    ∧ Outcome.notificationState outcome = SENT
    ∧ Outcome.lastError outcome = None.
Proof.
  intros Hm Hne Haccept.
  destruct (sendEnquiryEmails_run_nonempty buildTextEmailBody
              buildHtmlEmailBody messages_create env enquiry attachment
              st Hne) as (calls & records & Hrun & Hdisp).
  assert (Forall (λ a, Attempt.status a = SUCCESS) records) as Hall.
  { eapply Forall_impl; [exact (Dispatched_records _ _ _ _ Hdisp)|].
    intros a (r & h & c & [Hnone|m' response _ _|m' error _ Hrej]);
      [congruence|done|].
    destruct (Haccept h (createCall m' (Mailgun.Mailer.fromEmail m') r)).
    congruence. }
  assert (records ≠ []) as Hrecords.
  { apply Dispatched_Forall2, Forall2_length in Hdisp.
    destruct records; [|done]. by destruct intendedRecipients. }
  eexists _, _. split; [exact Hrun|]. simpl. split; [done|].
  by rewrite (summarizeAttempts_sent records Hrecords Hall).
Qed.

(** X12. With a mailer, at least one recipient and a provider that
    rejects every call, every attempt is a FAILURE, the outcome is
    FAILED, and the last error is the normalized message of a rejection
    the provider gave. *)
Theorem sendEnquiryEmails_all_rejected st m :
  Mailgun.getMailer env = Some m →
  intendedRecipients ≠ [] →
  (∀ history call, ∃ error, messages_create history call = Rejected error) →
  ∃ outcome st',
    sendEnquiryEmails st = (Normal outcome, st')
    ∧ Forall (λ a, Attempt.status a = FAILURE) (Outcome.attempts outcome)
    ∧ Outcome.notificationState outcome = FAILED
    ∧ ∃ history call error,
        messages_create history call = Rejected error
        ∧ Outcome.lastError outcome
          = Some (Mailgun.normalizeErrorMessage error).
Proof.
  intros Hm Hne Hreject.
  destruct (sendEnquiryEmails_run_nonempty buildTextEmailBody
              buildHtmlEmailBody messages_create env enquiry attachment
              st Hne) as (calls & records & Hrun & Hdisp).
  assert (Forall (λ a, Attempt.status a = FAILURE
                       ∧ ∃ history call error,
                           messages_create history call = Rejected error
                           ∧ Attempt.errorMessage a
                             = Some (Mailgun.normalizeErrorMessage error))
            records) as Hall.
  { eapply Forall_impl; [exact (Dispatched_records _ _ _ _ Hdisp)|].
    intros a (r & h & c & [Hnone|m' response _ Hres|m' error _ Hrej]);
      [congruence| |].
    - destruct (Hreject h (createCall m' (Mailgun.Mailer.fromEmail m') r)).
      congruence.
    - split; [done|]. by eexists _, _, _. }
  assert (records ≠ []) as Hrecords.
  { apply Dispatched_Forall2, Forall2_length in Hdisp.
    destruct records; [|done]. by destruct intendedRecipients. }
  eexists _, _. split; [exact Hrun|]. simpl.
  split; [eapply Forall_impl; [exact Hall|]; by intros a [? _]|].
  destruct (exists_last Hrecords) as (pre & f & ->).
  rewrite summarizeAttempts_all_failed
    by (eapply Forall_impl; [exact Hall|]; by intros a [? _]).
  split; [done|]. simpl.
  apply Forall_app in Hall as [_ Hf]. inversion_clear Hf as [|? ? [_ Hmsg] _].
  destruct Hmsg as (h & c & e & Hrej & ->). by exists h, c, e.
Qed.

Lemma sendEnquiryEmails_run_coherent st :
  ∃ outcome st',
    sendEnquiryEmails st = (Normal outcome, st')
    ∧ Outcome.attempts outcome ≠ []
    ∧ Outcome.notificationState outcome
      = Summary.notificationState (summarizeAttempts (Outcome.attempts outcome))
    ∧ Outcome.lastError outcome
      = Summary.lastError (summarizeAttempts (Outcome.attempts outcome))
    ∧ Outcome.notificationState outcome ≠ PENDING
    ∧ Forall (λ a, Attempt.status a = FAILURE → is_Some (Attempt.errorMessage a))
        (Outcome.attempts outcome)
    ∧ (Outcome.lastError outcome = None
       ↔ Outcome.notificationState outcome = SENT).
Proof.
  assert (∃ outcome st',
            sendEnquiryEmails st = (Normal outcome, st')
            ∧ Outcome.attempts outcome ≠ []
            ∧ Outcome.notificationState outcome
              = Summary.notificationState
                  (summarizeAttempts (Outcome.attempts outcome))
            ∧ Outcome.lastError outcome
              = Summary.lastError (summarizeAttempts (Outcome.attempts outcome))
            ∧ Forall (λ a, Attempt.status a = FAILURE
                           → is_Some (Attempt.errorMessage a))
                (Outcome.attempts outcome))
    as (outcome & st' & Hrun & Hne & Hstate & Herror & Hmsg).
  { assert (intendedRecipients = [] ∨ intendedRecipients ≠ [])
      as [Hnil|Hne] by (destruct intendedRecipients; [by left|by right]).
    - eexists _, _. split; [by apply sendEnquiryEmails_run_empty|].
      simpl. repeat split; try done. by repeat constructor.
    - destruct (sendEnquiryEmails_run_nonempty buildTextEmailBody
                  buildHtmlEmailBody messages_create env enquiry attachment
                  st Hne) as (calls & records & Hrun & Hdisp).
      eexists _, _. split; [exact Hrun|]. simpl. repeat split.
      + apply Dispatched_Forall2, Forall2_length in Hdisp.
        destruct records; [|done]. by destruct intendedRecipients.
      + eapply Forall_impl; [exact (Dispatched_records _ _ _ _ Hdisp)|].
        by intros a (r & h & c & [Hnone|m' response _ _|m' error _ _]). }
  exists outcome, st'. repeat split; try done.
  - rewrite Hstate.
    apply (summarizeAttempts_state_cases (Outcome.attempts outcome)).
  - rewrite Herror, Hstate. intros Hnone.
    apply (summarizeAttempts_state_cases (Outcome.attempts outcome)).
    split; [done|]. apply no_failure_all_success. intros Hex.
    rewrite summarizeAttempts_lastError in Hnone by done.
    destruct (last (filter (λ e, Attempt.status e = FAILURE)
                      (Outcome.attempts outcome))) as [f|] eqn:Hlast.
    + apply last_Some_elem_of, list_elem_of_filter in Hlast as [Hf Hin].
      rewrite Forall_forall in Hmsg. destruct (Hmsg f Hin Hf) as [e He].
      simpl in Hnone. congruence.
    + apply last_None in Hlast. apply filter_nil_Forall in Hlast.
      by apply Forall_not_Exists in Hlast.
  - rewrite Herror, Hstate. intros Hsent.
    apply (summarizeAttempts_state_cases (Outcome.attempts outcome))
      in Hsent as [Hne' Hall].
    by rewrite (summarizeAttempts_sent _ Hne' Hall).
Qed.

(** X13. Whatever the settings and the provider, the outcome of a
    dispatch has at least one attempt, its state and last error are
    those of [summarizeAttempts] on its attempts, the state is never
    PENDING, every FAILURE has an error message, and there is a last
    error exactly when the state is not SENT. *)
Theorem sendEnquiryEmails_outcome_coherent st :
  ∃ outcome st',
    sendEnquiryEmails st = (Normal outcome, st')
    ∧ Outcome.attempts outcome ≠ []
    ∧ Outcome.notificationState outcome
      = Summary.notificationState (summarizeAttempts (Outcome.attempts outcome))
    ∧ Outcome.lastError outcome
      = Summary.lastError (summarizeAttempts (Outcome.attempts outcome))
    ∧ Outcome.notificationState outcome ≠ PENDING
    ∧ Forall (λ a, Attempt.status a = FAILURE → is_Some (Attempt.errorMessage a))
        (Outcome.attempts outcome)
    ∧ (Outcome.lastError outcome = None
       ↔ Outcome.notificationState outcome = SENT).
Proof. apply sendEnquiryEmails_run_coherent. Qed.

End MailgunCalls.

(** ** More on the nodemailer revision *)

Section NodemailerCalls.

Context (buildTextEmailBody buildHtmlEmailBody :
           EnquiryEmailPayload.t → JsString → JsString)
        (smtp : list Nodemailer.Call.t → Nodemailer.Call.t → Settled JsValue)
        (earliest : nat)
        (env : gmap string JsString)
        (enquiry : EnquiryEmailPayload.t)
        (attachment : option AttachmentPayload.t).

(** X14. Past its guard the nodemailer revision sends one message to
    all staff addresses, when there are any, and then one to the
    customer, when there is one: at most two calls, both made whether
    or not the first is rejected.  It returns normally exactly when the
    server accepts every call. *)
Theorem sendEnquiryEmails_sends_every_message network transporter sender :
  Nodemailer.getMailer env = Some transporter →
  env !! "ENQUIRY_NOTIFICATION_FROM"%string = Some sender →
  truthy sender = true →
  getStaffRecipients env ≠ [] ∨ is_Some (customerRecipient enquiry) →
  ∃ completion calls,
    Nodemailer.sendEnquiryEmails buildTextEmailBody buildHtmlEmailBody
      smtp earliest env enquiry attachment network
    = (completion, network ++ calls)
    ∧ (λ call,
         (Nodemailer.Call.transporter call,
          Nodemailer.MailOptions.to (Nodemailer.Call.options call),
          Nodemailer.MailOptions.from (Nodemailer.Call.options call),
          Nodemailer.MailOptions.subject (Nodemailer.Call.options call)))
        <$> calls
      = match getStaffRecipients env with
        | [] => []
        | staff =>
            [ (transporter, Nodemailer.ToMany staff, sender,
               buildSubject enquiry) ]
        end
        ++ match customerRecipient enquiry with
           | Some customer =>
               [ (transporter, Nodemailer.ToOne customer, sender,
                  buildSubject enquiry) ]
           | None => []
           end
    ∧ (completion = Normal tt
       ↔ ∀ i call, calls !! i = Some call →
           ∃ info, smtp (network ++ take i calls) call = Resolved info).
Proof.
  intros Ht Hfrom Htruthy Hsome. unfold Nodemailer.sendEnquiryEmails.
  rewrite Ht, Hfrom, Htruthy.
  destruct (getStaffRecipients env) as [|s staff] eqn:Hstaff;
    destruct (customerRecipient enquiry) as [c|] eqn:Hc; simpl.
  - unfold mbind, Async_bind, Nodemailer.sendMail. simpl.
    destruct (smtp network _) as [info|error] eqn:Hcall; simpl.
    + eexists _, [_]. split; [reflexivity|]. split; [reflexivity|].
      split; [|done]. intros _ [|i] call Hi; simpl in Hi; [|done].
      injection Hi as <-. simpl. rewrite app_nil_r. by eexists.
    + eexists _, [_]. split; [reflexivity|]. split; [reflexivity|].
      split; [done|]. intros Hall.
      destruct (Hall 0%nat _ eq_refl) as [info Hinfo]. simpl in Hinfo.
      rewrite app_nil_r in Hinfo. congruence.
  - destruct Hsome as [?|[? ?]]; done.
  - unfold mbind, Async_bind, Nodemailer.sendMail. simpl.
    destruct (smtp network _) as [info|error] eqn:Hcall; simpl.
    + destruct (smtp (network ++ _) _) as [info'|error'] eqn:Hcall';
        simpl; rewrite <- app_assoc; simpl;
        eexists _, [_; _]; (split; [reflexivity|]);
        (split; [reflexivity|]).
      * split; [|done]. intros _ [|[|i]] call Hi; simpl in Hi; [| |done].
        -- injection Hi as <-. simpl. rewrite app_nil_r. by eexists.
        -- injection Hi as <-. simpl. by eexists.
      * split; [done|]. intros Hall.
        destruct (Hall 1%nat _ eq_refl) as [info' Hinfo]. simpl in Hinfo.
        congruence.
    + rewrite <- app_assoc; simpl.
      eexists _, [_; _]. split; [reflexivity|]. split; [reflexivity|].
      split; [done|]. intros Hall.
      destruct (Hall 0%nat _ eq_refl) as [info Hinfo]. simpl in Hinfo.
      rewrite app_nil_r in Hinfo. congruence.
  - unfold mbind, Async_bind, Nodemailer.sendMail. simpl.
    destruct (smtp network _) as [info|error] eqn:Hcall; simpl.
    + eexists _, [_]. split; [reflexivity|]. split; [reflexivity|].
      split; [|done]. intros _ [|i] call Hi; simpl in Hi; [|done].
      injection Hi as <-. simpl. rewrite app_nil_r. by eexists.
    + eexists _, [_]. split; [reflexivity|]. split; [reflexivity|].
      split; [done|]. intros Hall.
      destruct (Hall 0%nat _ eq_refl) as [info Hinfo]. simpl in Hinfo.
      rewrite app_nil_r in Hinfo. congruence.
Qed.

End NodemailerCalls.

(** ** Numbers as text *)

Section Numerals.

Implicit Types (s ds : JsString) (n : Z) (c d : N).

Lemma digitsValue_snoc ds d :
  digitsValue (ds ++ [d]) = 10 * digitsValue ds + (Z.of_N d - 0x30).
Proof. unfold digitsValue. by rewrite fold_left_app. Qed.

Lemma digit_unit n :
  0 ≤ n < 10 →
  isDigit (Z.to_N (0x30 + n)) = true
  ∧ Z.of_N (Z.to_N (0x30 + n)) - 0x30 = n
  ∧ isWhiteSpace (Z.to_N (0x30 + n)) = false
  ∧ Z.to_N (0x30 + n) ≠ 0x2D%N ∧ Z.to_N (0x30 + n) ≠ 0x2B%N.
Proof.
  intros Hn.
  assert (n = 0 ∨ n = 1 ∨ n = 2 ∨ n = 3 ∨ n = 4 ∨ n = 5 ∨ n = 6 ∨ n = 7
          ∨ n = 8 ∨ n = 9) as Hcases by lia.
  destruct Hcases as [->|[->|[->|[->|[->|[->|[->|[->|[->| ->]]]]]]]]];
    by vm_compute.
Qed.

Lemma decimalDigits_spec fuel n :
  0 ≤ n < 10 ^ Z.of_nat fuel →
  (fuel ≠ 0%nat → decimalDigits fuel n ≠ [])
  ∧ Forall (λ d, isDigit d = true) (decimalDigits fuel n)
  ∧ digitsValue (decimalDigits fuel n) = n.
Proof.
  revert n. induction fuel as [|fuel IH]; intros n Hn.
  - simpl in *. split; [done|]. split; [constructor|].
    change (10 ^ 0) with 1 in Hn. unfold digitsValue. simpl. lia.
  - simpl decimalDigits.
    pose proof (Z.mod_pos_bound n 10 ltac:(lia)) as Hmod.
    destruct (digit_unit (n mod 10) Hmod) as (Hdigit & Hvalue & _).
    split; [by intros _ [_ ?]%app_eq_nil|].
    destruct (Z.ltb_spec n 10) as [Hsmall|Hlarge].
    + split; [by repeat constructor|].
      rewrite app_nil_l. unfold digitsValue. simpl. rewrite Hvalue.
      rewrite Z.mod_small by lia. lia.
    + assert (0 ≤ n / 10 < 10 ^ Z.of_nat fuel) as Hdiv.
      { split; [apply Z.div_pos; lia|].
        apply Z.div_lt_upper_bound; [lia|].
        rewrite Nat2Z.inj_succ, Z.pow_succ_r in Hn by lia. lia. }
      destruct (IH (n / 10) Hdiv) as (_ & Hall & Hval).
      split; [apply Forall_app; split; [done|by repeat constructor]|].
      rewrite digitsValue_snoc, Hval, Hvalue.
      pose proof (Z.div_mod n 10 ltac:(lia)). lia.
Qed.

Lemma decimal_fuel n : 0 ≤ n → n < 10 ^ Z.of_nat (S (Z.to_nat (Z.log2 n))).
Proof.
  intros Hn. rewrite Nat2Z.inj_succ, Z2Nat.id by apply Z.log2_nonneg.
  destruct (decide (n = 0)) as [->|Hpos]; [done|].
  pose proof (Z.log2_spec n ltac:(lia)) as [_ Hlt].
  eapply Z.lt_le_trans; [exact Hlt|].
  apply Z.pow_le_mono_l. pose proof (Z.log2_nonneg n). lia.
Qed.

Lemma takeDigits_all ds :
  Forall (λ d, isDigit d = true) ds → takeDigits ds = ds.
Proof. induction 1 as [|d ds Hd _ IH]; simpl; [done|]. by rewrite Hd, IH. Qed.

Lemma isDigit_plain d :
  isDigit d = true →
  isWhiteSpace d = false ∧ d ≠ 0x2D%N ∧ d ≠ 0x2B%N.
Proof.
  unfold isDigit. intros [Hlo Hhi]%andb_prop.
  apply N.leb_le in Hlo, Hhi.
  assert (d = 0x30 ∨ d = 0x31 ∨ d = 0x32 ∨ d = 0x33 ∨ d = 0x34 ∨ d = 0x35
          ∨ d = 0x36 ∨ d = 0x37 ∨ d = 0x38 ∨ d = 0x39)%N as Hcases by lia.
  destruct Hcases as [->|[->|[->|[->|[->|[->|[->|[->|[->| ->]]]]]]]]];
    by vm_compute.
Qed.

(** Reading a numeral: digits alone, or a minus sign and digits. *)
Lemma parseInt10_digits ds :
  ds ≠ [] → Forall (λ d, isDigit d = true) ds →
  parseInt10 ds = Some (digitsValue ds)
  ∧ parseInt10 (0x2D%N :: ds) = Some (- digitsValue ds).
Proof.
  intros Hne Hall. destruct ds as [|d ds]; [done|].
  pose proof (takeDigits_all _ Hall) as Htake.
  inversion_clear Hall as [|? ? Hd _].
  destruct (isDigit_plain d Hd) as (Hws & Hminus & Hplus).
  apply N.eqb_neq in Hminus, Hplus. split.
  - unfold parseInt10. rewrite trimStart_fixed by done.
    rewrite Hminus, Hplus, Htake. f_equal. lia.
  - unfold parseInt10. rewrite trimStart_fixed by done.
    change (0x2D =? 0x2D)%N with true. cbv iota. by rewrite Htake.
Qed.

Lemma numberToString_spec n :
  ∃ ds,
    ds ≠ [] ∧ Forall (λ d, isDigit d = true) ds
    ∧ digitsValue ds = Z.abs n
    ∧ numberToString n = if n <? 0 then 0x2D%N :: ds else ds.
Proof.
  unfold numberToString. destruct (Z.ltb_spec n 0) as [Hneg|Hpos].
  - assert (0 ≤ - n) as Hn by lia.
    destruct (decimalDigits_spec _ (- n) (conj Hn (decimal_fuel (- n) Hn)))
      as (Hne & Hall & Hval).
    eexists. split; [by apply Hne|]. split; [done|].
    split; [|done]. rewrite Hval. lia.
  - destruct (decimalDigits_spec _ n (conj Hpos (decimal_fuel n Hpos)))
      as (Hne & Hall & Hval).
    eexists. split; [by apply Hne|]. split; [done|].
    split; [|done]. rewrite Hval. lia.
Qed.

Lemma parseInt10_numberToString n : parseInt10 (numberToString n) = Some n.
Proof.
  destruct (numberToString_spec n) as (ds & Hne & Hall & Hval & ->).
  destruct (parseInt10_digits ds Hne Hall) as [Hplain Hminus].
  destruct (Z.ltb_spec n 0).
  - rewrite Hminus, Hval. f_equal. lia.
  - rewrite Hplain, Hval. f_equal. lia.
Qed.

(** A numeral has no white space at either end. *)
Lemma numberToString_ends n :
  numberToString n ≠ []
  ∧ match numberToString n with
    | c :: _ => isWhiteSpace c = false
    | [] => True
    end
  ∧ match last (numberToString n) with
    | Some c => isWhiteSpace c = false
    | None => True
    end.
Proof.
  destruct (numberToString_spec n) as (ds & Hne & Hall & _ & ->).
  assert (match last ds with
          | Some c => isWhiteSpace c = false
          | None => True
          end) as Hlast.
  { destruct (last ds) as [c|] eqn:Hc; [|done].
    apply last_Some_elem_of in Hc. rewrite Forall_forall in Hall.
    by apply isDigit_plain, Hall. }
  destruct ds as [|d ds]; [done|].
  inversion_clear Hall as [|? ? Hd _].
  destruct (Z.ltb n 0).
  - split; [done|]. split; [done|]. by rewrite last_cons_cons.
  - split; [done|]. split; [by apply isDigit_plain|done].
Qed.

End Numerals.

(** ** The storefront route *)

Section ProxyRouteForm.

Context (toLowerCase : JsString → JsString).

Implicit Types (s : JsString) (n : Z) (formData : ProxyRoute.FormData).

Lemma parseInteger_padded n before after :
  Forall (λ c, isWhiteSpace c = true) before →
  Forall (λ c, isWhiteSpace c = true) after →
  ProxyRoute.parseInteger
    (Some (ProxyRoute.EntryString (before ++ numberToString n ++ after)))
  = Some n.
Proof.
  intros Hbefore Hafter.
  destruct (numberToString_ends n) as (Hne & Hhead & Hlast).
  unfold ProxyRoute.parseInteger.
  rewrite (trim_padded before (numberToString n) after) by done.
  assert (truthy (before ++ numberToString n ++ after) = true) as ->.
  { destruct before; [|done]. simpl. by destruct (numberToString n). }
  assert (truthy (numberToString n) = true) as ->
    by by destruct (numberToString n).
  simpl. apply parseInt10_numberToString.
Qed.

(** X15. [parseInteger] reads back the numeral of an integer, white
    space around it or not (for the integers a number holds exactly),
    and gives null for a missing entry, a file and a blank text. *)
Theorem parseInteger_numeral n before after :
  Z.abs n ≤ 2 ^ 53 →
  Forall (λ c, isWhiteSpace c = true) before →
  Forall (λ c, isWhiteSpace c = true) after →
  ProxyRoute.parseInteger
    (Some (ProxyRoute.EntryString (before ++ numberToString n ++ after)))
  = Some n
  ∧ ProxyRoute.parseInteger None = None
  ∧ (∀ file, ProxyRoute.parseInteger (Some (ProxyRoute.EntryFile file)) = None)
  ∧ (∀ blank,
       Forall (λ c, isWhiteSpace c = true) blank →
       ProxyRoute.parseInteger (Some (ProxyRoute.EntryString blank)) = None).
Proof.
  intros _ Hbefore Hafter.
  split; [by apply parseInteger_padded|]. split; [done|]. split; [done|].
  intros blank Hblank. unfold ProxyRoute.parseInteger.
  rewrite (trim_blank blank Hblank). by destruct (truthy blank).
Qed.

Lemma safe_text s :
  s ≠ [] →
  match s with c :: _ => isWhiteSpace c = false | [] => True end →
  match last s with Some c => isWhiteSpace c = false | None => True end →
  safe (Some s) = s.
Proof.
  intros Hne Hhead Hlast. unfold safe. rewrite (trim_fixed s Hhead Hlast).
  by destruct s.
Qed.

Lemma textLines_quantity_line formData attachment confirmationCopy :
  textLines (ProxyRoute.createdEnquiry toLowerCase formData attachment)
    confirmationCopy !! 8%nat
  = Some (js "  Quantity for Quote: "
          ++ match ProxyRoute.parseInteger
                     (ProxyRoute.formGet formData (js "quantity")) with
             | Some n => numberToString n
             | None => emDash
             end).
Proof.
  unfold textLines. cbn [lookup list_lookup].
  unfold ProxyRoute.createdEnquiry. cbn [EnquiryEmailPayload.quantity].
  destruct (ProxyRoute.parseInteger _) as [n|]; [|done].
  cbn [fmap option_fmap option_map].
  destruct (numberToString_ends n) as (Hne & Hhead & Hlast).
  by rewrite safe_text.
Qed.

(** X16. The quantity entry of the array [lines] from which the text
    body is joined (its entry 8, the ninth) shows what the form gave: a
    field holding the numeral of an integer (one that a number holds
    exactly), with white space around it or not, is shown as that
    numeral, and a field from which [parseInteger] reads no number is
    shown as the dash. *)
Theorem textLines_quantity formData attachment confirmationCopy :
  (∀ n before after,
     Z.abs n ≤ 2 ^ 53 →
     Forall (λ c, isWhiteSpace c = true) before →
     Forall (λ c, isWhiteSpace c = true) after →
     ProxyRoute.formGet formData (js "quantity")
     = Some (ProxyRoute.EntryString (before ++ numberToString n ++ after)) →
     textLines (ProxyRoute.createdEnquiry toLowerCase formData attachment)
       confirmationCopy !! 8%nat
     = Some (js "  Quantity for Quote: " ++ numberToString n))
  ∧ (ProxyRoute.parseInteger (ProxyRoute.formGet formData (js "quantity"))
     = None →
     textLines (ProxyRoute.createdEnquiry toLowerCase formData attachment)
       confirmationCopy !! 8%nat
     = Some (js "  Quantity for Quote: " ++ emDash)).
Proof.
  split.
  - intros n before after Hn Hbefore Hafter Hget.
    by rewrite textLines_quantity_line, Hget,
         (parseInteger_padded n before after).
  - intros Hnone. by rewrite textLines_quantity_line, Hnone.
Qed.

End ProxyRouteForm.

Section ProxyRouteRow.

Context (toLowerCase : JsString → JsString).

Implicit Types (s : JsString) (formData : ProxyRoute.FormData).

Lemma normalizeString_Some value s :
  ProxyRoute.normalizeString value = Some s →
  s ≠ [] ∧ trim s = s ∧ ∃ text, value = Some text ∧ s = trim text.
Proof.
  unfold ProxyRoute.normalizeString. destruct value as [text|]; [|done].
  destruct (truthy text); [|done]. simpl.
  destruct (trim text) as [|c t] eqn:Ht; [done|]. simpl. intros [= <-].
  split; [done|]. split; [rewrite <- Ht; apply trim_idemp|]. by eexists.
Qed.

Lemma normalizeString_None value :
  ProxyRoute.normalizeString value = None
  ↔ value = None ∨ ∃ text, value = Some text ∧ trim text = [].
Proof.
  unfold ProxyRoute.normalizeString. destruct value as [text|];
    [|by split; [left|]].
  destruct text as [|c text]; simpl.
  { split; [|done]. intros _. right. by exists []. }
  destruct (trim (c :: text)) as [|c' t] eqn:Ht; simpl.
  - split; [|done]. intros _. right. by eexists.
  - split; [done|]. intros [?|(text' & [= <-] & Hnil)]; [done|].
    congruence.
Qed.

(** X17. [normalizeString] gives null or a text that is not empty and
    has no white space at either end, namely the trimmed input; it
    gives null exactly for a missing or blank input; and normalizing
    twice is normalizing once. *)
Theorem normalizeString_normal value :
  (∀ s, ProxyRoute.normalizeString value = Some s →
        s ≠ [] ∧ trim s = s ∧ ∃ text, value = Some text ∧ s = trim text)
  ∧ (ProxyRoute.normalizeString value = None
     ↔ value = None ∨ ∃ text, value = Some text ∧ trim text = [])
  ∧ ProxyRoute.normalizeString (ProxyRoute.normalizeString value)
    = ProxyRoute.normalizeString value.
Proof.
  split; [apply normalizeString_Some|]. split; [apply normalizeString_None|].
  destruct (ProxyRoute.normalizeString value) as [s|] eqn:Hs; [|done].
  apply normalizeString_Some in Hs as (Hne & Htrim & _).
  unfold ProxyRoute.normalizeString. rewrite Htrim.
  by destruct s.
Qed.

(** X18. In the row made from a form the name, the request type and the
    message are never empty; the address is the normalized email field
    or empty, and it is the customer recipient: there is a customer
    recipient exactly when the email field has a character that is no
    white space, and it is that field trimmed. *)
Theorem createdEnquiry_contact formData attachment :
  let enquiry := ProxyRoute.createdEnquiry toLowerCase formData attachment in
  EnquiryEmailPayload.name enquiry ≠ []
  ∧ EnquiryEmailPayload.requestType enquiry ≠ []
  ∧ EnquiryEmailPayload.message enquiry ≠ []
  ∧ customerRecipient enquiry
    = ProxyRoute.normalizeString
        (ProxyRoute.getStringField formData (js "email"))
  ∧ buildSubject enquiry
    = js "[Free Visual] "
      ++ default (js "Unknown contact")
           (ProxyRoute.normalizeString
              (ProxyRoute.getStringField formData (js "name"))).
Proof.
  intros enquiry. unfold enquiry, ProxyRoute.createdEnquiry. simpl.
  assert (∀ value fallback,
            fallback ≠ [] →
            default fallback (ProxyRoute.normalizeString value) ≠ [])
    as Hdefault.
  { intros value fallback Hfallback.
    destruct (ProxyRoute.normalizeString value) as [s|] eqn:Hs; [|done].
    by apply normalizeString_Some in Hs as [? _]. }
  split; [by apply Hdefault|]. split; [by apply Hdefault|].
  split; [by apply Hdefault|]. split; [|done].
  unfold customerRecipient. simpl.
  destruct (ProxyRoute.normalizeString _) as [s|] eqn:Hs; simpl; [|done].
  apply normalizeString_Some in Hs as (Hne & -> & _). by destruct s.
Qed.

(** X19. A form gives an attachment exactly when its entry is a file
    with at least one byte; the attachment then has the bytes of the
    file, their number as size, and a file name and a media type that
    are never empty. *)
Theorem getAttachmentFromForm_file rawValue :
  (is_Some (ProxyRoute.getAttachmentFromForm rawValue)
   ↔ ∃ file, rawValue = Some (ProxyRoute.EntryFile file)
             ∧ ProxyRoute.File.content file ≠ [])
  ∧ ∀ attachment,
      ProxyRoute.getAttachmentFromForm rawValue = Some attachment →
      AttachmentPayload.filename attachment ≠ []
      ∧ AttachmentPayload.mimeType attachment ≠ []
      ∧ AttachmentPayload.data attachment ≠ []
      ∧ AttachmentPayload.size attachment
        = Z.of_nat (length (AttachmentPayload.data attachment))
      ∧ ∃ file, rawValue = Some (ProxyRoute.EntryFile file)
                ∧ AttachmentPayload.data attachment
                  = ProxyRoute.File.content file.
Proof.
  unfold ProxyRoute.getAttachmentFromForm.
  destruct rawValue as [[text|file]|]; simpl.
  - split; [|done]. split; [by intros [? ?]|by intros (? & ? & _)].
  - unfold ProxyRoute.File.size.
    destruct (ProxyRoute.File.content file) as [|b bytes] eqn:Hcontent.
    + simpl. split; [|done].
      split; [by intros [? ?]|]. intros (file' & [= <-] & Hne). congruence.
    + change (Z.of_nat (length (b :: bytes)) =? 0) with false. cbv iota.
      split.
      * split; [|by eexists]. intros _. exists file. by rewrite Hcontent.
      * intros attachment [= <-]. simpl.
        split; [by destruct (ProxyRoute.File.name file)|].
        split; [by destruct (ProxyRoute.File.type file)|].
        split; [done|]. split; [done|]. by exists file.
  - split; [|done]. split; [by intros [? ?]|by intros (? & ? & _)].
Qed.

End ProxyRouteRow.

(** ** What the storefront route stores *)

Section ProxyRouteStore.

Implicit Types (enquiryId : JsString) (attemptedAt : Z).

(** X20. Whatever the dispatch does, storing its outcome does not
    throw, and the transaction starts with one update of the enquiry,
    stamped with the time of the attempt, followed by at most one
    insertion of log rows, all of this enquiry.  After a dispatch that
    threw, the update alone is made: FAILED, with the message of the
    error when it is an [Error] and a fixed message otherwise. *)
Theorem notificationOperations_total {S} (send : Async S Outcome.t)
    enquiryId attemptedAt (st : S) :
  ∃ data logs st',
    ProxyRoute.notificationOperations send enquiryId attemptedAt st
    = (Normal (ProxyRoute.EnquiryUpdate enquiryId data :: logs), st')
    ∧ st' = (send st).2
    ∧ ProxyRoute.UpdateData.lastEmailAttemptAt data = attemptedAt
    ∧ (logs = []
       ∨ ∃ rows,
           logs = [ProxyRoute.EmailLogCreateMany rows]
           ∧ rows ≠ []
           ∧ Forall (λ row, ProxyRoute.EmailLogRow.enquiryId row = enquiryId)
               rows)
    ∧ ∀ error,
        (send st).1 = Throw error →
        logs = []
        ∧ ProxyRoute.UpdateData.emailNotificationState data = FAILED
        ∧ ProxyRoute.UpdateData.lastEmailError data
          = Some match error with
                 | ThrownError message _ => message
                 | _ => js "Unknown error sending enquiry notification email"
                 end.
Proof.
  unfold ProxyRoute.notificationOperations, mbind, Async_bind, try_catch.
  destruct (send st) as [[outcome|error] st1]; simpl.
  - unfold ProxyRoute.updateOperations.
    destruct (Outcome.attempts outcome) as [|a attempts] eqn:Hattempts.
    + eexists _, [], _. split; [reflexivity|]. split; [done|].
      split; [done|]. split; [by left|done].
    + eexists _, [_], _. simpl. split; [reflexivity|]. split; [done|].
      split; [done|]. split; [|done].
      right. eexists. split; [done|]. split; [done|].
      by apply Forall_cons; split; [|apply Forall_fmap, Forall_forall].
  - eexists _, [], _. simpl. split; [reflexivity|]. split; [done|].
    split; [done|]. split; [by left|]. intros ? [= <-].
    split; [done|]. split; [done|]. by destruct error.
Qed.

End ProxyRouteStore.

Section ProxyRouteMailgun.

Context (buildTextEmailBody buildHtmlEmailBody :
           EnquiryEmailPayload.t → JsString → JsString)
        (messages_create :
           list Mailgun.Call.t → Mailgun.Call.t → Settled Mailgun.Response)
        (env : gmap string JsString)
        (enquiry : EnquiryEmailPayload.t)
        (attachment : option AttachmentPayload.t).

Local Abbreviation sendEnquiryEmails :=
  (Mailgun.sendEnquiryEmails buildTextEmailBody buildHtmlEmailBody
     messages_create env enquiry attachment).

(** X21. With the Mailgun dispatch the transaction always has both
    operations: the update with the state and last error of the
    outcome, and the insertion of one log row per attempt, in order.
    So the stored state is SENT exactly when every stored row is a
    SUCCESS, FAILED exactly when every stored row is a FAILURE, and the
    stored last error is null exactly when the state is SENT. *)
Theorem notificationOperations_mailgun enquiryId attemptedAt st :
  ∃ outcome st' data rows,
    sendEnquiryEmails st = (Normal outcome, st')
    ∧ ProxyRoute.notificationOperations sendEnquiryEmails enquiryId
        attemptedAt st
      = (Normal [ ProxyRoute.EnquiryUpdate enquiryId data;
                  ProxyRoute.EmailLogCreateMany rows ], st')
    ∧ rows = ProxyRoute.logRow enquiryId <$> Outcome.attempts outcome
    ∧ rows ≠ []
    ∧ ProxyRoute.UpdateData.lastEmailAttemptAt data = attemptedAt
    ∧ (ProxyRoute.UpdateData.emailNotificationState data = SENT
       ↔ Forall (λ row, ProxyRoute.EmailLogRow.status row = SUCCESS) rows)
    ∧ (ProxyRoute.UpdateData.emailNotificationState data = FAILED
       ↔ Forall (λ row, ProxyRoute.EmailLogRow.status row = FAILURE) rows)
    ∧ (ProxyRoute.UpdateData.lastEmailError data = None
       ↔ ProxyRoute.UpdateData.emailNotificationState data = SENT).
Proof.
  destruct (sendEnquiryEmails_run_coherent buildTextEmailBody
              buildHtmlEmailBody messages_create env enquiry attachment st)
    as (outcome & st' & Hrun & Hne & Hstate & Herror & _ & _ & Hnone).
  exists outcome, st',
    {| ProxyRoute.UpdateData.emailNotificationState :=
         Outcome.notificationState outcome;
       ProxyRoute.UpdateData.lastEmailAttemptAt := attemptedAt;
       ProxyRoute.UpdateData.lastEmailError := Outcome.lastError outcome |},
    (ProxyRoute.logRow enquiryId <$> Outcome.attempts outcome).
  split; [exact Hrun|].
  unfold ProxyRoute.notificationOperations, mbind, Async_bind, try_catch.
  rewrite Hrun. simpl. unfold ProxyRoute.updateOperations.
  destruct (Outcome.attempts outcome) as [|a attempts] eqn:Hattempts;
    [done|].
  change (0 <? length (a :: attempts))%nat with true. cbv iota.
  split; [reflexivity|]. split; [reflexivity|]. split; [done|].
  split; [done|]. simpl ProxyRoute.UpdateData.emailNotificationState.
  simpl ProxyRoute.UpdateData.lastEmailError.
  destruct (summarizeAttempts_state_cases (a :: attempts))
    as (Hsent & Hfailed & _ & _).
  rewrite Hstate. split; [|split; [|by rewrite <- Hstate]].
  - rewrite Hsent, Forall_fmap. split; [by intros [_ ?]|done].
  - by rewrite Hfailed, Forall_fmap.
Qed.

End ProxyRouteMailgun.

(** ** The dashboard route *)

Section DashboardLoader.

Implicit Types (rawPage : option JsString) (totalMatching n : Z).

Lemma requestedPage_bounds rawPage :
  1 ≤ Dashboard.requestedPage rawPage < Dashboard.infinityThreshold.
Proof.
  unfold Dashboard.requestedPage.
  assert (1 < Dashboard.infinityThreshold) as Hone by by vm_compute.
  destruct (parseInt10 _) as [parsed|]; [|lia].
  destruct (Z.leb_spec Dashboard.infinityThreshold (Z.abs parsed));
    simpl; [lia|].
  destruct (Z.ltb_spec parsed 1); lia.
Qed.

Lemma requestedPage_numeral n :
  1 ≤ n < Dashboard.infinityThreshold →
  Dashboard.requestedPage (Some (numberToString n)) = n.
Proof.
  intros Hn. unfold Dashboard.requestedPage. simpl.
  rewrite parseInt10_numberToString.
  destruct (Z.leb_spec Dashboard.infinityThreshold (Z.abs n)); [lia|].
  simpl. destruct (Z.ltb_spec n 1); lia.
Qed.

Lemma maxPage_bounds totalMatching :
  0 ≤ totalMatching →
  1 ≤ Dashboard.maxPage totalMatching
  ∧ totalMatching ≤ Dashboard.maxPage totalMatching * 10
  ∧ (0 < totalMatching → (Dashboard.maxPage totalMatching - 1) * 10
                         < totalMatching).
Proof.
  intros Htotal. unfold Dashboard.maxPage, Dashboard.PAGE_SIZE.
  pose proof (Z.div_mod (- totalMatching) 10 ltac:(lia)) as Hdiv.
  pose proof (Z.mod_pos_bound (- totalMatching) 10 ltac:(lia)) as Hmod.
  lia.
Qed.

(** X22. The page that is read is never before the first page nor after
    the last one, whatever page was asked for; the rows skipped are a
    multiple of the page size and fewer than the rows that match, so
    the page that is read is not empty when something matches; and a
    page asked for by its numeral within the range is the page read. *)
Theorem loader_page_in_range rawPage totalMatching :
  0 ≤ totalMatching ≤ 2 ^ 53 →
  1 ≤ Dashboard.page rawPage totalMatching ≤ Dashboard.maxPage totalMatching
  ∧ Dashboard.skip rawPage totalMatching
    = (Dashboard.page rawPage totalMatching - 1) * 10
  ∧ 0 ≤ Dashboard.skip rawPage totalMatching
  ∧ (0 < totalMatching → Dashboard.skip rawPage totalMatching < totalMatching)
  ∧ (totalMatching = 0 → Dashboard.skip rawPage totalMatching = 0)
  ∧ totalMatching ≤ Dashboard.maxPage totalMatching * 10
  ∧ ∀ n, 1 ≤ n ≤ Dashboard.maxPage totalMatching →
         Dashboard.page (Some (numberToString n)) totalMatching = n.
Proof.
  intros [Htotal Hmax].
  destruct (maxPage_bounds totalMatching Htotal) as (Hone & Hcover & Hlast).
  pose proof (requestedPage_bounds rawPage) as [Hrequested _].
  unfold Dashboard.skip, Dashboard.page, Dashboard.PAGE_SIZE.
  repeat split; try lia.
  - intros ->. change (Dashboard.maxPage 0) with 1. lia.
  - intros n Hn. rewrite requestedPage_numeral; [lia|].
    assert (Dashboard.maxPage totalMatching ≤ 2 ^ 53 + 1) as Hbound.
    { destruct (decide (totalMatching = 0)) as [->|Hpos];
        [by vm_compute|].
      specialize (Hlast ltac:(lia)). lia. }
    assert (2 ^ 53 + 1 < Dashboard.infinityThreshold) by by vm_compute.
    lia.
Qed.

Lemma fold_left_assign_lookup (entries : list (JsString * Z))
    (m : gmap JsString Z) (k : JsString) :
  fold_left (λ counts entry, Dashboard.assign entry.1 entry.2 counts)
    entries m !! k
  = match last (filter (λ entry, entry.1 = k ∧ k ≠ js "__proto__") entries)
    with
    | Some entry => Some entry.2
    | None => m !! k
    end.
Proof.
  revert m. induction entries as [|entry entries IH] using rev_ind;
    intros m; [done|].
  rewrite fold_left_app, filter_app. simpl. unfold Dashboard.assign at 1.
  destruct (decide (entry.1 = k)) as [Hk|Hk].
  - destruct (decide (k = js "__proto__")) as [Hproto|Hproto].
    + rewrite decide_True by congruence.
      rewrite filter_cons_False, filter_nil, app_nil_r by tauto. apply IH.
    + rewrite decide_False by congruence.
      rewrite filter_cons_True, filter_nil by done.
      rewrite last_snoc. rewrite <- Hk. apply lookup_insert_eq.
  - rewrite filter_cons_False, filter_nil, app_nil_r by tauto.
    destruct (decide (entry.1 = js "__proto__")); [apply IH|].
    rewrite lookup_insert_ne by done. apply IH.
Qed.

Lemma zero_counts_lookup (k : JsString) :
  fold_left (λ counts option, Dashboard.assign option 0 counts)
    Dashboard.STATUS_VALUES (∅ : gmap JsString Z) !! k
  = if decide (k ∈ Dashboard.STATUS_VALUES) then Some 0 else None.
Proof.
  unfold Dashboard.STATUS_VALUES. simpl. unfold Dashboard.assign.
  rewrite !decide_False by discriminate.
  case_decide as Hk.
  - repeat (apply elem_of_cons in Hk as [->|Hk];
            [by simplify_map_eq|]).
    by apply elem_of_nil in Hk.
  - rewrite !not_elem_of_cons in Hk.
    destruct Hk as (? & ? & ? & ? & ? & ? & _).
    by rewrite !lookup_insert_ne, lookup_empty.
Qed.

(** X23. The status counts have an entry for each of the six statuses:
    a status without a group counts zero, a status with a group has
    the count of its group (of the last one, should a status come
    twice); a key that is neither a status nor a group is absent, and
    so is the key [__proto__], even when a group has it. *)
Theorem statusCounts_lookup (groupedCounts : list (JsString * Z)) :
  (∀ status, status ∈ Dashboard.STATUS_VALUES →
             is_Some (Dashboard.statusCounts groupedCounts !! status))
  ∧ (∀ key, key ∉ groupedCounts.*1 →
            Dashboard.statusCounts groupedCounts !! key
            = if decide (key ∈ Dashboard.STATUS_VALUES) then Some 0 else None)
  ∧ (∀ before key count after,
       groupedCounts = before ++ (key, count) :: after →
       key ∉ after.*1 →
       key ≠ js "__proto__" →
       Dashboard.statusCounts groupedCounts !! key = Some count)
  ∧ Dashboard.statusCounts groupedCounts !! js "__proto__" = None.
Proof.
  assert (∀ key,
            Dashboard.statusCounts groupedCounts !! key
            = match last (filter (λ entry, entry.1 = key
                                           ∧ key ≠ js "__proto__")
                            groupedCounts) with
              | Some entry => Some entry.2
              | None =>
                  if decide (key ∈ Dashboard.STATUS_VALUES) then Some 0
                  else None
              end) as Hlookup.
  { intros key. unfold Dashboard.statusCounts.
    by rewrite fold_left_assign_lookup, zero_counts_lookup. }
  assert (∀ key (entries : list (JsString * Z)),
            key ∉ entries.*1 →
            filter (λ entry, entry.1 = key ∧ key ≠ js "__proto__") entries
            = []) as Habsent.
  { intros key entries Hkey. apply filter_nil_Forall, Forall_forall.
    intros entry Hin [Heq _]. apply Hkey, list_elem_of_fmap. by exists entry. }
  split; [|split; [|split]].
  - intros status Hstatus. rewrite Hlookup.
    destruct (last _); [by eexists|]. by rewrite decide_True.
  - intros key Hkey. by rewrite Hlookup, (Habsent key groupedCounts Hkey).
  - intros before key count after -> Hkey Hproto. rewrite Hlookup, filter_app.
    rewrite filter_cons_True, (Habsent key after Hkey) by done.
    by rewrite last_snoc.
  - rewrite Hlookup.
    replace (filter _ groupedCounts) with (@nil (JsString * Z)).
    + cbn [last]. case_decide as Hstatus; [|done].
      unfold Dashboard.STATUS_VALUES in Hstatus.
      repeat (apply elem_of_cons in Hstatus as [Hstatus|Hstatus];
              [discriminate|]).
      by apply elem_of_nil in Hstatus.
    + symmetry. apply filter_nil_Forall, Forall_forall.
      by intros entry _ [_ Hproto].
Qed.

End DashboardLoader.

Section DashboardAction.

Context (toUpperCase : JsString → JsString).

Implicit Types (enquiries : gmap JsString Dashboard.Row.t).
Implicit Types (row : Dashboard.Row.t) (id sessionShop : JsString).

(** The action rejects and changes nothing, or accepts and rewrites one
    row of the shop of the session. *)
Lemma action_cases sessionShop now formData enquiries :
  (∃ httpStatus error,
     Dashboard.action toUpperCase sessionShop now formData enquiries
     = (Dashboard.ActionError httpStatus error, enquiries)
     ∧ (httpStatus = 400 ∨ httpStatus = 404))
  ∨ ∃ id existing updated,
      Dashboard.action toUpperCase sessionShop now formData enquiries
      = (Dashboard.ActionOk id (Dashboard.Row.status updated)
           (Dashboard.Row.statusNotes updated)
           (Dashboard.Row.statusUpdatedAt updated),
         <[id := updated]> enquiries)
      ∧ id ≠ []
      ∧ enquiries !! id = Some existing
      ∧ Dashboard.Row.shop existing = sessionShop
      ∧ Dashboard.Row.shop updated = sessionShop
      ∧ Dashboard.Row.status updated ∈ Dashboard.STATUS_VALUES
      ∧ Dashboard.Row.statusUpdatedAt updated
        = if decide (Dashboard.Row.status updated
                     = Dashboard.Row.status existing)
          then Dashboard.Row.statusUpdatedAt existing else now.
Proof.
  unfold Dashboard.action.
  destruct (negb _); [left; by eexists _, _; split; [|left]|].
  set (enquiryId := match ProxyRoute.formGet formData (js "enquiryId") with
                    | Some (ProxyRoute.EntryString value) => trim value
                    | _ => []
                    end).
  set (statusValue := match ProxyRoute.formGet formData (js "status") with
                      | Some (ProxyRoute.EntryString value) =>
                          toUpperCase (trim value)
                      | _ => []
                      end).
  set (statusNotes :=
         match ProxyRoute.formGet formData (js "statusNotes") with
         | Some (ProxyRoute.EntryString value) =>
             if (0 <? length (trim value))%nat then Some (trim value)
             else None
         | _ => None
         end).
  destruct enquiryId as [|c rest] eqn:Hid; simpl;
    [left; by eexists _, _; split; [|left]|].
  case_decide as Hstatus; [left; by eexists _, _; split; [|left]|].
  destruct (enquiries !! (c :: rest)) as [existing|] eqn:Hrow;
    [|left; by eexists _, _; split; [|right]].
  case_decide as Hshop; [left; by eexists _, _; split; [|right]|].
  right.
  exists (c :: rest), existing,
    {| Dashboard.Row.shop := Dashboard.Row.shop existing;
       Dashboard.Row.status := statusValue;
       Dashboard.Row.statusNotes := statusNotes;
       Dashboard.Row.statusUpdatedAt :=
         if bool_decide (Dashboard.Row.status existing ≠ statusValue)
         then now else Dashboard.Row.statusUpdatedAt existing |}.
  split; [reflexivity|]. simpl. repeat split; try done.
  case_bool_decide as Hsame; case_decide; congruence.
Qed.

(** X24. The action of the dashboard never creates or deletes an
    enquiry and never touches an enquiry of another shop.  A row it
    changes is the one named in the request, belongs to the shop of the
    session and stays with it, gets one of the six statuses, and has
    its status time set to now exactly when its status changes.  An
    error response leaves the table as it was. *)
Theorem action_scoped sessionShop now formData enquiries :
  let result :=
    Dashboard.action toUpperCase sessionShop now formData enquiries in
  dom result.2 = dom enquiries
  ∧ (∀ id row,
       enquiries !! id = Some row →
       Dashboard.Row.shop row ≠ sessionShop →
       result.2 !! id = Some row)
  ∧ (∀ id row row',
       enquiries !! id = Some row → result.2 !! id = Some row' →
       row' ≠ row →
       Dashboard.Row.shop row = sessionShop
       ∧ Dashboard.Row.shop row' = sessionShop
       ∧ Dashboard.Row.status row' ∈ Dashboard.STATUS_VALUES
       ∧ Dashboard.Row.statusUpdatedAt row'
         = (if decide (Dashboard.Row.status row' = Dashboard.Row.status row)
            then Dashboard.Row.statusUpdatedAt row else now)
       ∧ ∃ statusNotes,
           result.1
           = Dashboard.ActionOk id (Dashboard.Row.status row') statusNotes
               (Dashboard.Row.statusUpdatedAt row'))
  ∧ (∀ httpStatus error,
       result.1 = Dashboard.ActionError httpStatus error →
       result.2 = enquiries).
Proof.
  intros result. unfold result.
  destruct (action_cases sessionShop now formData enquiries)
    as [(code & msg & -> & _)
       |(id & existing & updated & -> & _ & Hrow & Hshop & Hshop' & Hstatus
         & Htime)]; simpl.
  - split; [done|]. split; [done|]. split; [|done].
    intros k r r' Hr Hr' Hne. congruence.
  - split; [|split; [|split]].
    + by apply dom_insert_lookup_L.
    + intros id' row Hrow' Hother.
      rewrite lookup_insert_ne; [done|]. intros <-. congruence.
    + intros id' row row' Hrow'.
      destruct (decide (id = id')) as [<-|Hne].
      * rewrite lookup_insert_eq. intros [= <-] _.
        assert (row = existing) as -> by congruence.
        repeat split; try done. by eexists.
      * rewrite lookup_insert_ne by done. congruence.
    + done.
Qed.

End DashboardAction.

(** ** Scenarios for the further properties *)

Section FurtherScenarios.

Import Examples FurtherExamples.

(** Two spellings of one text have the same escaped form. *)
Lemma scenario_escaped_alike : js "a<b" ++ js "&c" = js "a" ++ js "<b&c".
Proof. apply escapeHtml_inj. vm_compute. reflexivity. Defined.

(** The same attempts in another order. *)
Lemma scenario_order_of_attempts :
  Summary.notificationState
    (summarizeAttempts
       [ attempted FAILURE (Some (js "e1")); attempted SUCCESS None ])
  = Summary.notificationState
      (summarizeAttempts
         [ attempted SUCCESS None; attempted FAILURE (Some (js "e1")) ]).
Proof. apply summarizeAttempts_state_permutation. apply perm_swap. Defined.

(** A failed batch followed by a batch that went through. *)
Lemma scenario_two_batches :
  Summary.notificationState
    (summarizeAttempts
       ([ attempted FAILURE (Some (js "e1")) ] ++ [ attempted SUCCESS None ]))
  ≠ SENT
  ∧ Summary.lastError
      (summarizeAttempts
         ([ attempted FAILURE (Some (js "e1")) ]
          ++ [ attempted SUCCESS None ]))
    = Some (js "e1").
Proof.
  destruct (summarizeAttempts_app
              [ attempted FAILURE (Some (js "e1")) ]
              [ attempted SUCCESS None ]) as (Hsent & _ & Herror);
    [discriminate | discriminate |].
  split.
  - intros [Hfirst _]%Hsent. vm_compute in Hfirst. discriminate.
  - rewrite Herror. vm_compute. reflexivity.
Defined.

(** Scenario A seen from the provider: one call for each of the three
    recipients, with the settings of the environment. *)
Lemma scenario_A_calls :
  ∃ outcome st',
    Mailgun.sendEnquiryEmails copyOnly copyOnly accepting
      (withMailgun staff) (enquiryFrom customer) None idle
    = (Normal outcome, st')
    ∧ take (length (Mailgun.State.network idle)) (Mailgun.State.network st')
      = Mailgun.State.network idle
    ∧ Forall2
        (λ r call,
           let data := Mailgun.Call.data call in
           Mailgun.MessageData.to data = Mailgun.Recipient.email r
           ∧ withMailgun staff !! "MAILGUN_FROM_EMAIL"%string
             = Some (Mailgun.MessageData.from data)
           ∧ withMailgun staff !! "MAILGUN_DOMAIN"%string
             = Some (Mailgun.Call.domain call)
           ∧ withMailgun staff !! "MAILGUN_API_KEY"%string
             = Some (Mailgun.Client.key (Mailgun.Call.client call))
           ∧ Mailgun.MessageData.subject data
             = buildSubject (enquiryFrom customer)
           ∧ Mailgun.MessageData.text data = Mailgun.Recipient.textBody r
           ∧ Mailgun.MessageData.html data = Mailgun.Recipient.htmlBody r
           ∧ Mailgun.MessageData.attachment data
             = (λ payload,
                  [ {| Mailgun.Attachment.data :=
                         AttachmentPayload.data payload;
                       Mailgun.Attachment.filename :=
                         AttachmentPayload.filename payload;
                       Mailgun.Attachment.contentType :=
                         AttachmentPayload.mimeType payload |} ])
               <$> None)
        (Mailgun.intendedRecipients copyOnly copyOnly
           (withMailgun staff) (enquiryFrom customer))
        (drop (length (Mailgun.State.network idle))
           (Mailgun.State.network st')).
Proof.
  eapply sendEnquiryEmails_one_call_per_recipient.
  vm_compute. reflexivity.
Defined.

(** Scenario A: the provider accepts every message. *)
Lemma scenario_A_accepted :
  ∃ outcome st',
    Mailgun.sendEnquiryEmails copyOnly copyOnly accepting
      (withMailgun staff) (enquiryFrom customer) None idle
    = (Normal outcome, st')
    ∧ Forall (λ a, Attempt.status a = SUCCESS) (Outcome.attempts outcome)
    ∧ Outcome.notificationState outcome = SENT
    ∧ Outcome.lastError outcome = None.
Proof.
  eapply sendEnquiryEmails_all_accepted.
  - vm_compute. reflexivity.
  - vm_compute. discriminate.
  - intros history call. exists queued. reflexivity.
Defined.

(** The provider rejects every message. *)
Lemma scenario_all_rejected :
  ∃ outcome st',
    Mailgun.sendEnquiryEmails copyOnly copyOnly refusing
      (withMailgun staff) (enquiryFrom customer) None idle
    = (Normal outcome, st')
    ∧ Forall (λ a, Attempt.status a = FAILURE) (Outcome.attempts outcome)
    ∧ Outcome.notificationState outcome = FAILED
    ∧ ∃ history call error,
        refusing history call = Rejected error
        ∧ Outcome.lastError outcome
          = Some (Mailgun.normalizeErrorMessage error).
Proof.
  eapply sendEnquiryEmails_all_rejected.
  - vm_compute. reflexivity.
  - vm_compute. discriminate.
  - intros history call. exists (newError (js "Forbidden")). reflexivity.
Defined.

(** The nodemailer revision with SMTP configured: one message to the
    staff list and one to the customer. *)
Lemma scenario_smtp_messages :
  ∃ completion calls,
    Nodemailer.sendEnquiryEmails copyOnly copyOnly smtpAccepting 0
      (withSmtp staff) (enquiryFrom customer) None []
    = (completion, [] ++ calls)
    ∧ (λ call,
         (Nodemailer.Call.transporter call,
          Nodemailer.MailOptions.to (Nodemailer.Call.options call),
          Nodemailer.MailOptions.from (Nodemailer.Call.options call),
          Nodemailer.MailOptions.subject (Nodemailer.Call.options call)))
        <$> calls
      = match getStaffRecipients (withSmtp staff) with
        | [] => []
        | staff =>
            [ (relay, Nodemailer.ToMany staff, js "sales@example.com",
               buildSubject (enquiryFrom customer)) ]
        end
        ++ match customerRecipient (enquiryFrom customer) with
           | Some customer =>
               [ (relay, Nodemailer.ToOne customer, js "sales@example.com",
                  buildSubject (enquiryFrom customer)) ]
           | None => []
           end
    ∧ (completion = Normal tt
       ↔ ∀ i call, calls !! i = Some call →
           ∃ info, smtpAccepting ([] ++ take i calls) call = Resolved info).
Proof.
  apply (sendEnquiryEmails_sends_every_message copyOnly copyOnly
           smtpAccepting 0).
  - vm_compute. reflexivity.
  - vm_compute. reflexivity.
  - vm_compute. reflexivity.
  - left. vm_compute. discriminate.
Defined.

(** A quantity typed with blanks around it. *)
Lemma scenario_quantity_read :
  ProxyRoute.parseInteger
    (Some (ProxyRoute.EntryString (js " " ++ numberToString 250 ++ js "  ")))
  = Some 250
  ∧ ProxyRoute.parseInteger None = None
  ∧ (∀ file, ProxyRoute.parseInteger (Some (ProxyRoute.EntryFile file)) = None)
  ∧ (∀ blank,
       Forall (λ c, isWhiteSpace c = true) blank →
       ProxyRoute.parseInteger (Some (ProxyRoute.EntryString blank)) = None).
Proof.
  apply parseInteger_numeral.
  - vm_compute. discriminate.
  - repeat constructor.
  - repeat constructor.
Defined.

(** Twenty-five matching enquiries, and page 7 asked for. *)
Lemma scenario_page_past_the_end :
  1 ≤ Dashboard.page (Some (js "7")) 25 ≤ Dashboard.maxPage 25
  ∧ Dashboard.skip (Some (js "7")) 25
    = (Dashboard.page (Some (js "7")) 25 - 1) * 10
  ∧ 0 ≤ Dashboard.skip (Some (js "7")) 25
  ∧ (0 < 25 → Dashboard.skip (Some (js "7")) 25 < 25)
  ∧ (25 = 0 → Dashboard.skip (Some (js "7")) 25 = 0)
  ∧ 25 ≤ Dashboard.maxPage 25 * 10
  ∧ ∀ n, 1 ≤ n ≤ Dashboard.maxPage 25 →
         Dashboard.page (Some (numberToString n)) 25 = n.
Proof.
  apply loader_page_in_range.
  split; vm_compute; discriminate.
Defined.

End FurtherScenarios.
